(** * The eBPF opcode model of package [asm] (opcode.go)

    A shallow embedding of [Class], [OpCode], the facet accessors and
    mutators, the raw projection [bpfOpCode] and the mnemonic renderer
    [String], followed by the properties of the opcode model. *)

From Stdlib Require Import ZArith Bool String Ascii List Lia.
From Stdlib Require Import HexadecimalString DecimalString.
Import ListNotations.

Local Open Scope string_scope.
Local Open Scope bool_scope.
Local Open Scope Z_scope.

(** ** Machine integers

    [OpCode] is a [uint32]; [Class] and the facet types are narrower unsigned
    integers.  All of them are carried by [Z]; a conversion to a [w]-bit type
    and the 32-bit complement are written out. *)

Definition uint32 (x : Z) : Prop := 0 <= x < 2 ^ 32.

(** Conversion [T(x)] to an unsigned type of [w] bits. *)
Definition wrap (w x : Z) : Z := x mod 2 ^ w.

(** [^x] on a [uint32]. *)
Definition not32 (x : Z) : Z := Z.lxor x (Z.ones 32).

(** ** Class *)

Definition classMask : Z := 0x07.

Definition LdClass : Z := 0x00.
Definition LdXClass : Z := 0x01.
Definition StClass : Z := 0x02.
Definition StXClass : Z := 0x03.
Definition ALUClass : Z := 0x04.
Definition JumpClass : Z := 0x05.
Definition Jump32Class : Z := 0x06.
Definition ALU64Class : Z := 0x07.

Module Class.

Definition IsLoad (cls : Z) : bool :=
  (cls =? LdClass) || (cls =? LdXClass).

Definition IsStore (cls : Z) : bool :=
  (cls =? StClass) || (cls =? StXClass).

Definition isLoadOrStore (cls : Z) : bool :=
  IsLoad cls || IsStore cls.

Definition IsALU (cls : Z) : bool :=
  (cls =? ALUClass) || (cls =? ALU64Class).

Definition IsJump (cls : Z) : bool :=
  (cls =? JumpClass) || (cls =? Jump32Class).

Definition isJumpOrALU (cls : Z) : bool :=
  IsJump cls || IsALU cls.

End Class.

(** ** OpCode *)

Definition InvalidOpCode : Z := 0xffff.

(** Conversion [OpCode(x)] of a facet value. *)
Definition toOpCode (x : Z) : Z := wrap 32 x.

(** [valid] returns true if all bits in [value] are covered by [mask]. *)
Definition valid (value mask : Z) : bool :=
  Z.land value (not32 mask) =? 0.

(** ** Strings

    [strings.HasSuffix], [strings.TrimSuffix] and [strings.Contains] on byte
    strings, and the two number formats the package prints with. *)

Definition HasSuffix (s suffix : string) : bool :=
  (String.length suffix <=? String.length s)%nat &&
  String.eqb
    (substring (String.length s - String.length suffix)
               (String.length suffix) s)
    suffix.

Definition TrimSuffix (s suffix : string) : string :=
  if HasSuffix s suffix
  then substring 0 (String.length s - String.length suffix) s
  else s.

Definition Contains (s substr : string) : bool :=
  match index 0 substr s with
  | Some _ => true
  | None => false
  end.

(** [%#x] of an unsigned value: [0x] and the lower-case hexadecimal digits. *)
Definition format_hex (x : Z) : string :=
  "0x" ++ HexadecimalString.NilZero.string_of_uint (N.to_hex_uint (Z.to_N x)).

(** [strconv.FormatInt(x, 10)] of a non-negative value. *)
Definition format_dec (x : Z) : string :=
  DecimalString.NilZero.string_of_uint (N.to_uint (Z.to_N x)).

(** ** Declarations of the other files of the package

    opcode.go uses the facet types [Mode], [Size], [AtomicOp], [Source],
    [Endianness], [ALUOp] and [JumpOp], their masks, their [Invalid] sentinels,
    some of their named values and their [String] methods.  These are declared
    in load_store.go, alu.go, jump.go and the generated *_string.go files.
    The embedding of opcode.go takes them as parameters: a width in bits for
    each facet type, and the constants and name tables by their Go names. *)

Class Decls : Type := {
  (* type Mode *)
  Mode_bits : Z;
  modeMask : Z;
  InvalidMode : Z;
  ImmMode : Z;
  AtomicMode : Z;
  Mode_String : Z -> string;
  (* type Size *)
  Size_bits : Z;
  sizeMask : Z;
  InvalidSize : Z;
  DWord : Z;
  Word : Z;
  Half : Z;
  Byte : Z;
  (* type AtomicOp *)
  AtomicOp_bits : Z;
  atomicMask : Z;
  InvalidAtomic : Z;
  AtomicOp_String : Z -> string;
  (* type Source *)
  Source_bits : Z;
  sourceMask : Z;
  InvalidSource : Z;
  Source_String : Z -> string;
  (* type Endianness *)
  Endianness_bits : Z;
  endianMask : Z;
  InvalidEndian : Z;
  Endianness_String : Z -> string;
  (* type ALUOp *)
  ALUOp_bits : Z;
  aluMask : Z;
  InvalidALUOp : Z;
  Swap : Z;
  ALUOp_String : Z -> string;
  (* type JumpOp *)
  JumpOp_bits : Z;
  jumpMask : Z;
  InvalidJumpOp : Z;
  Exit : Z;
  Call : Z;
  Ja : Z;
  JumpOp_String : Z -> string;
  (* func (Class) String, generated by stringer *)
  Class_String : Z -> string
}.

(** The result of [bpfOpCode]: a byte, or the error built by
    [fmt.Errorf("invalid opcode %x", op)], kept as its argument. *)
Inductive error : Type :=
| Errorf_invalid_opcode (op : Z).

(** The arm of the [switch] in [String] that an opcode takes. *)
Inductive StringCase : Type :=
| caseLoadOrStore
| caseALU
| caseJump
| caseDefault.

Module OpCode.
Section Methods.
Context {K : Decls}.

(** [Class] returns the class of operation. *)
Definition Class (op : Z) : Z :=
  wrap 8 (Z.land op classMask).

(** [bpfOpCode] returns the actual BPF opcode. *)
Definition bpfOpCode (op : Z) : Z + error :=
  let opCodeMask := 0xff in
  if negb (valid op opCodeMask) then inr (Errorf_invalid_opcode op)
  else inl (wrap 8 (Z.land op opCodeMask)).

(** [Mode] returns the mode for load and store operations. *)
Definition Mode (op : Z) : Z :=
  if negb (Class.isLoadOrStore (Class op)) then InvalidMode
  else wrap Mode_bits (Z.land op modeMask).

(** [Size] returns the size for load and store operations. *)
Definition Size (op : Z) : Z :=
  if negb (Class.isLoadOrStore (Class op)) then InvalidSize
  else wrap Size_bits (Z.land op sizeMask).

(** [AtomicOp] returns the type of atomic operation. *)
Definition AtomicOp (op : Z) : Z :=
  if negb (Class op =? StXClass) || negb (Mode op =? AtomicMode)
  then InvalidAtomic
  else wrap AtomicOp_bits (Z.land op atomicMask).

(** [ALUOp] returns the ALUOp. *)
Definition ALUOp (op : Z) : Z :=
  if negb (Class.IsALU (Class op)) then InvalidALUOp
  else wrap ALUOp_bits (Z.land op aluMask).

(** [Source] returns the source for branch and ALU operations. *)
Definition Source (op : Z) : Z :=
  if negb (Class.isJumpOrALU (Class op)) || (ALUOp op =? Swap)
  then InvalidSource
  else wrap Source_bits (Z.land op sourceMask).

(** [Endianness] returns the Endianness for a byte swap instruction. *)
Definition Endianness (op : Z) : Z :=
  if negb (ALUOp op =? Swap) then InvalidEndian
  else wrap Endianness_bits (Z.land op endianMask).

(** [JumpOp] returns the JumpOp, [InvalidJumpOp] if it doesn't encode a jump. *)
Definition JumpOp (op : Z) : Z :=
  if negb (Class.IsJump (Class op)) then InvalidJumpOp
  else
    let jumpOp := wrap JumpOp_bits (Z.land op jumpMask) in
    (* Some JumpOps are only supported by JumpClass, not Jump32Class. *)
    if (Class op =? Jump32Class) && ((jumpOp =? Exit) || (jumpOp =? Call))
    then InvalidJumpOp
    else jumpOp.

(** The jump field of an opcode: the local [jumpOp] of [JumpOp], what the
    opcode encodes before the class check. *)
Definition jumpField (op : Z) : Z :=
  wrap JumpOp_bits (Z.land op jumpMask).

(** [SetMode] sets the mode on load and store operations. *)
Definition SetMode (op mode : Z) : Z :=
  if negb (Class.isLoadOrStore (Class op))
     || negb (valid (toOpCode mode) modeMask)
  then InvalidOpCode
  else Z.lor (Z.land op (not32 modeMask)) (toOpCode mode).

(** [SetSize] sets the size on load and store operations. *)
Definition SetSize (op size : Z) : Z :=
  if negb (Class.isLoadOrStore (Class op))
     || negb (valid (toOpCode size) sizeMask)
  then InvalidOpCode
  else Z.lor (Z.land op (not32 sizeMask)) (toOpCode size).

Definition SetAtomicOp (op atomic : Z) : Z :=
  if negb (Class op =? StXClass) || negb (Mode op =? AtomicMode)
     || negb (valid (toOpCode atomic) atomicMask)
  then InvalidOpCode
  else Z.lor (Z.land op (not32 atomicMask)) (toOpCode atomic).

(** [SetSource] sets the source on jump and ALU operations. *)
Definition SetSource (op source : Z) : Z :=
  if negb (Class.isJumpOrALU (Class op))
     || negb (valid (toOpCode source) sourceMask)
  then InvalidOpCode
  else Z.lor (Z.land op (not32 sourceMask)) (toOpCode source).

(** [SetALUOp] sets the ALUOp on ALU operations. *)
Definition SetALUOp (op alu : Z) : Z :=
  if negb (Class.IsALU (Class op)) || negb (valid (toOpCode alu) aluMask)
  then InvalidOpCode
  else Z.lor (Z.land op (not32 aluMask)) (toOpCode alu).

(** [SetJumpOp] sets the JumpOp on jump operations. *)
Definition SetJumpOp (op jump : Z) : Z :=
  if negb (Class.IsJump (Class op)) || negb (valid (toOpCode jump) jumpMask)
  then InvalidOpCode
  else
    let newOp := Z.lor (Z.land op (not32 jumpMask)) (toOpCode jump) in
    (* Check newOp is legal. *)
    if JumpOp newOp =? InvalidJumpOp then InvalidOpCode
    else newOp.

(** Modelled from the spec: [LoadImmOp] is declared in load_store.go, not in
    opcode.go; the constructor table gives [LoadImmOp(size)] class [Ld], mode
    [Immediate] and the given size, built from the class with the setters. *)
Definition LoadImmOp (size : Z) : Z :=
  SetSize (SetMode (toOpCode LdClass) ImmMode) size.

Definition IsDWordLoad (op : Z) : bool :=
  op =? LoadImmOp DWord.

(** [rawInstructions] returns the number of BPF instructions required to
    encode this opcode. *)
Definition rawInstructions (op : Z) : Z :=
  if IsDWordLoad op then 2 else 1.

(** The [switch] of [String]: the first arm whose predicate holds. *)
Definition String_case (op : Z) : StringCase :=
  let class := Class op in
  if Class.isLoadOrStore class then caseLoadOrStore
  else if Class.IsALU class then caseALU
  else if Class.IsJump class then caseJump
  else caseDefault.

Definition String_ (op : Z) : string :=
  let f := EmptyString in
  let class := Class op in
  match String_case op with
  | caseLoadOrStore =>
      let f := f ++ TrimSuffix (Class_String class) "Class" in
      let mode := Mode op in
      let f := f ++ TrimSuffix (Mode_String mode) "Mode" in
      let atomic := AtomicOp op in
      let f :=
        if negb (atomic =? InvalidAtomic)
        then f ++ TrimSuffix (AtomicOp_String atomic) "Atomic"
        else f in
      let size := Size op in
      if size =? DWord then f ++ "DW"
      else if size =? Word then f ++ "W"
      else if size =? Half then f ++ "H"
      else if size =? Byte then f ++ "B"
      else f
  | caseALU =>
      let f :=
        if (ALUOp op =? Swap) && (Class op =? ALU64Class)
        then f ++ "B" (* B to make BSwap, unconditional byte swap *)
        else f in
      let f := f ++ ALUOp_String (ALUOp op) in
      if ALUOp op =? Swap then
        if Class op =? ALUClass
        then f ++ Endianness_String (Endianness op)
        else f
      else
        let f := f ++ TrimSuffix (Source_String (Source op)) "Source" in
        if class =? ALUClass then f ++ "32" else f
  | caseJump =>
      let f := f ++ JumpOp_String (JumpOp op) in
      let f := if class =? Jump32Class then f ++ "32" else f in
      let jop := JumpOp op in
      if negb (jop =? Exit) && negb (jop =? Call) && negb (jop =? Ja)
      then f ++ TrimSuffix (Source_String (Source op)) "Source"
      else f
  | caseDefault =>
      f ++ "OpCode(" ++ format_hex (wrap 8 op) ++ ")"
  end.

End Methods.
End OpCode.

(** ** A table of the declarations

    The declarations that are not in opcode.go, with the kernel's uapi
    encodings: Mode is bits 5 to 7 and Size bits 3 to 4 of the opcode byte,
    Source and Endianness are bit 3, ALUOp and JumpOp the high nibble (mask
    0xF0), in the order the data model lists their variants; the atomic
    operation sits above the low byte, bits 8 to 16, as the layout comment of
    [OpCode] draws it.  The sentinels are all-ones values outside the masks.
    A name is the Go identifier of the constant, as stringer prints it, and
    [Type(n)] for a value without a constant. *)

(** Modelled from the spec: opcode_string.go, generated by stringer from the
    eight [Class] constants, is not in opcode.go. *)
Definition uapi_Class_String (cls : Z) : string :=
  match cls with
  | 0x00 => "LdClass"
  | 0x01 => "LdXClass"
  | 0x02 => "StClass"
  | 0x03 => "StXClass"
  | 0x04 => "ALUClass"
  | 0x05 => "JumpClass"
  | 0x06 => "Jump32Class"
  | 0x07 => "ALU64Class"
  | _ => "Class(" ++ format_dec cls ++ ")"
  end.

(** Modelled from the spec: the names of the recognised modes; the generated
    file of load_store.go is missing. *)
Definition uapi_Mode_String (mode : Z) : string :=
  match mode with
  | 0x00 => "ImmMode"
  | 0x20 => "AbsMode"
  | 0x40 => "IndMode"
  | 0x60 => "MemMode"
  | 0x80 => "MemSXMode"
  | 0xc0 => "AtomicMode"
  | 0xff => "InvalidMode"
  | _ => "Mode(" ++ format_dec mode ++ ")"
  end.

(** Modelled from the spec: the names of the atomic operations, the plain
    ones, the ones with the fetch bit, exchange and compare-and-exchange;
    [AtomicOp.String] of load_store.go is missing. *)
Definition uapi_AtomicOp_String (atomic : Z) : string :=
  match atomic with
  | 0x0000 => "AddAtomic"
  | 0x5000 => "AndAtomic"
  | 0x4000 => "OrAtomic"
  | 0xa000 => "XorAtomic"
  | 0x0100 => "FetchAdd"
  | 0x5100 => "FetchAnd"
  | 0x4100 => "FetchOr"
  | 0xa100 => "FetchXor"
  | 0xe100 => "XChgAtomic"
  | 0xf100 => "CmpXChgAtomic"
  | 0xffffffff => "InvalidAtomic"
  | _ => "AtomicOp(" ++ format_dec atomic ++ ")"
  end.

(** Modelled from the spec: the names of the two sources; the generated
    file of alu.go is missing. *)
Definition uapi_Source_String (source : Z) : string :=
  match source with
  | 0x00 => "ImmSource"
  | 0x08 => "RegSource"
  | 0xff => "InvalidSource"
  | _ => "Source(" ++ format_dec source ++ ")"
  end.

(** Modelled from the spec: the names of the two byte orders, as the byte
    swap mnemonics end; the generated file of alu.go is missing. *)
Definition uapi_Endianness_String (e : Z) : string :=
  match e with
  | 0x00 => "LE"
  | 0x08 => "BE"
  | 0xff => "InvalidEndian"
  | _ => "Endianness(" ++ format_dec e ++ ")"
  end.

(** Modelled from the spec: the names of the ALU operations in the order of
    the data model; the generated file of alu.go is missing. *)
Definition uapi_ALUOp_String (alu : Z) : string :=
  match alu with
  | 0x00 => "Add"
  | 0x10 => "Sub"
  | 0x20 => "Mul"
  | 0x30 => "Div"
  | 0x40 => "Or"
  | 0x50 => "And"
  | 0x60 => "LSh"
  | 0x70 => "RSh"
  | 0x80 => "Neg"
  | 0x90 => "Mod"
  | 0xa0 => "Xor"
  | 0xb0 => "Mov"
  | 0xc0 => "ArSh"
  | 0xd0 => "Swap"
  | 0xff => "InvalidALUOp"
  | _ => "ALUOp(" ++ format_dec alu ++ ")"
  end.

(** Modelled from the spec: the names of the jump operations in the order of
    the data model; the generated file of jump.go is missing. *)
Definition uapi_JumpOp_String (jump : Z) : string :=
  match jump with
  | 0x00 => "Ja"
  | 0x10 => "JEq"
  | 0x20 => "JGT"
  | 0x30 => "JGE"
  | 0x40 => "JSet"
  | 0x50 => "JNE"
  | 0x60 => "JSGT"
  | 0x70 => "JSGE"
  | 0x80 => "Call"
  | 0x90 => "Exit"
  | 0xa0 => "JLT"
  | 0xb0 => "JLE"
  | 0xc0 => "JSLT"
  | 0xd0 => "JSLE"
  | 0xff => "InvalidJumpOp"
  | _ => "JumpOp(" ++ format_dec jump ++ ")"
  end.

(** Modelled from the spec: the masks, sentinels and named values of
    load_store.go, alu.go and jump.go, which are missing, at the encodings of
    the data model. *)
Definition uapi : Decls := {|
  Mode_bits := 8;
  modeMask := 0xe0;
  InvalidMode := 0xff;
  ImmMode := 0x00;
  AtomicMode := 0xc0;
  Mode_String := uapi_Mode_String;
  Size_bits := 8;
  sizeMask := 0x18;
  InvalidSize := 0xff;
  DWord := 0x18;
  Word := 0x00;
  Half := 0x08;
  Byte := 0x10;
  AtomicOp_bits := 32;
  atomicMask := 0x0001ff00;
  InvalidAtomic := 0xffffffff;
  AtomicOp_String := uapi_AtomicOp_String;
  Source_bits := 8;
  sourceMask := 0x08;
  InvalidSource := 0xff;
  Source_String := uapi_Source_String;
  Endianness_bits := 8;
  endianMask := 0x08;
  InvalidEndian := 0xff;
  Endianness_String := uapi_Endianness_String;
  ALUOp_bits := 8;
  aluMask := 0xf0;
  InvalidALUOp := 0xff;
  Swap := 0xd0;
  ALUOp_String := uapi_ALUOp_String;
  JumpOp_bits := 8;
  jumpMask := 0xf0;
  InvalidJumpOp := 0xff;
  Exit := 0x90;
  Call := 0x80;
  Ja := 0x00;
  JumpOp_String := uapi_JumpOp_String;
  Class_String := uapi_Class_String
|}.

(** The opcodes without a bit above the low byte. *)
Definition byte_opcodes : list Z := map Z.of_nat (seq 0 256).

(** What the mnemonic of an opcode holds of the four suffixes, under the
    name tables of [uapi]. *)
Definition suffix_scan (o : Z) : bool :=
  let s := OpCode.String_ (K:=uapi) o in
  let mode := OpCode.Mode (K:=uapi) o in
  negb (Contains s "Class") &&
  negb (Contains s "Source") &&
  ((mode =? 0xa0) || (mode =? 0xe0) || negb (Contains s "Mode")) &&
  Bool.eqb (Contains s "Atomic") (mode =? AtomicMode (Decls:=uapi)).

(** * Properties *)

(** Side conditions on the constants of [uapi] are closed and decided by
    evaluation. *)
Ltac uint32_const := unfold uint32; lia.

Ltac uapi_side :=
  first [ reflexivity
        | discriminate
        | split; [ discriminate | reflexivity ] ].

(** ** Bits of the machine operations *)

Lemma testbit_not32 (x i : Z) :
  0 <= i -> Z.testbit (not32 x) i = xorb (Z.testbit x i) (i <? 32).
Proof.
  intros Hi. unfold not32.
  now rewrite Z.lxor_spec, Z.testbit_ones_nonneg by lia.
Qed.

Lemma testbit_high (w x i : Z) :
  0 <= x < 2 ^ w -> w <= i -> Z.testbit x i = false.
Proof.
  intros Hx Hi.
  destruct (Z.ltb_spec w 0) as [Hw | Hw].
  - rewrite Z.pow_neg_r in Hx by assumption. lia.
  - rewrite <- (Z.mod_small x (2 ^ w)) by assumption.
    apply Z.mod_pow2_bits_high. lia.
Qed.

Lemma testbit_wrap (w x i : Z) :
  0 <= w -> Z.testbit (wrap w x) i = (i <? w) && Z.testbit x i.
Proof. intros Hw. unfold wrap. now apply Z.testbit_mod_pow2. Qed.

Lemma wrap_small (w x : Z) : 0 <= x < 2 ^ w -> wrap w x = x.
Proof. intros Hx. unfold wrap. now apply Z.mod_small. Qed.

Lemma wrap_uint32 (x : Z) : uint32 (wrap 32 x).
Proof. unfold uint32, wrap. apply Z.mod_pos_bound. lia. Qed.

Lemma valid_iff (v m : Z) : valid v m = true <-> Z.land v (not32 m) = 0.
Proof. unfold valid. apply Z.eqb_eq. Qed.

(** A value covered by a mask has, below bit 32, only bits of the mask. *)
Lemma valid_testbit (v m i : Z) :
  valid v m = true -> 0 <= i < 32 ->
  Z.testbit v i = true -> Z.testbit m i = true.
Proof.
  intros Hv Hi Hb. apply valid_iff in Hv.
  apply (f_equal (fun z => Z.testbit z i)) in Hv.
  rewrite Z.land_spec, testbit_not32, Z.bits_0, Hb in Hv by lia.
  destruct (Z.ltb_spec i 32); [ | lia ].
  now destruct (Z.testbit m i).
Qed.

(** Two masks without a common bit. *)
Lemma disjoint_testbit (m c i : Z) :
  Z.land m c = 0 -> Z.testbit c i = true -> Z.testbit m i = false.
Proof.
  intros Hd Hc.
  apply (f_equal (fun z => Z.testbit z i)) in Hd.
  rewrite Z.land_spec, Z.bits_0, Hc in Hd.
  now destruct (Z.testbit m i).
Qed.

(** [(op & ^m) | v] leaves the field of a mask [c] disjoint from [m] as it
    was, for [v] covered by [m]. *)
Lemma replace_other_field (op m v c : Z) :
  uint32 c -> uint32 v -> Z.land m c = 0 -> valid v m = true ->
  Z.land (Z.lor (Z.land op (not32 m)) v) c = Z.land op c.
Proof.
  intros Hc Hv32 Hd Hv. apply Z.bits_inj'. intros i Hi.
  rewrite !Z.land_spec, Z.lor_spec, Z.land_spec, testbit_not32 by assumption.
  destruct (Z.testbit c i) eqn:Ec; [ | now rewrite !andb_false_r ].
  rewrite !andb_true_r.
  destruct (Z.ltb_spec i 32) as [Hlt | Hge].
  - rewrite (disjoint_testbit m c i Hd Ec). cbn [xorb].
    destruct (Z.testbit v i) eqn:Ev.
    + apply (valid_testbit v m i Hv) in Ev; [ | lia ].
      rewrite (disjoint_testbit m c i Hd Ec) in Ev. discriminate.
    + now rewrite andb_true_r, orb_false_r.
  - rewrite (testbit_high 32 c i Hc Hge) in Ec. discriminate.
Qed.

(** [(op & ^m) | v] has [v] in the field of [m], for [v] covered by [m]. *)
Lemma replace_this_field (op m v : Z) :
  uint32 m -> uint32 v -> valid v m = true ->
  Z.land (Z.lor (Z.land op (not32 m)) v) m = v.
Proof.
  intros Hm Hv32 Hv. apply Z.bits_inj'. intros i Hi.
  rewrite Z.land_spec, Z.lor_spec, Z.land_spec, testbit_not32 by assumption.
  destruct (Z.ltb_spec i 32) as [Hlt | Hge].
  - destruct (Z.testbit v i) eqn:Ev.
    + rewrite (valid_testbit v m i Hv) by (assumption || lia).
      now rewrite orb_true_r.
    + rewrite orb_false_r. now destruct (Z.testbit m i), (Z.testbit op i).
  - rewrite (testbit_high 32 m i Hm Hge), (testbit_high 32 v i Hv32 Hge).
    now rewrite andb_false_r.
Qed.

(** Writing back the field that was read is the identity. *)
Lemma replace_same_field (op m w : Z) :
  uint32 op -> 0 <= m < 2 ^ w ->
  Z.lor (Z.land op (not32 m)) (wrap 32 (wrap w (Z.land op m))) = op.
Proof.
  intros Hop Hm.
  assert (Hw : 0 <= w).
  { destruct (Z.ltb_spec w 0) as [Hneg | ]; [ | assumption ].
    rewrite Z.pow_neg_r in Hm by assumption. lia. }
  apply Z.bits_inj'. intros i Hi.
  rewrite Z.lor_spec, Z.land_spec, testbit_not32 by assumption.
  rewrite !testbit_wrap, Z.land_spec by lia.
  destruct (Z.ltb_spec i 32) as [Hlt | Hge].
  - destruct (Z.testbit m i) eqn:Em.
    + destruct (Z.ltb_spec i w) as [ | Hiw ].
      * now destruct (Z.testbit op i).
      * rewrite (testbit_high w m i Hm Hiw) in Em. discriminate.
    + now rewrite andb_false_r, andb_false_r, orb_false_r, andb_true_r.
  - rewrite (testbit_high 32 op i Hop Hge). reflexivity.
Qed.

(** What a getter reads is covered by the mask it reads through. *)
Lemma valid_field (op m w : Z) :
  uint32 op -> 0 <= w -> valid (wrap 32 (wrap w (Z.land op m))) m = true.
Proof.
  intros Hop Hw. apply valid_iff. apply Z.bits_inj'. intros i Hi.
  rewrite Z.land_spec, testbit_not32, !testbit_wrap, Z.land_spec, Z.bits_0
    by lia.
  destruct (Z.ltb_spec i 32) as [Hlt | Hge].
  - now destruct (Z.testbit m i), (Z.testbit op i), (i <? w).
  - reflexivity.
Qed.

(** The class is the low three bits, whatever the opcode. *)
Lemma Class_land (op : Z) : OpCode.Class op = Z.land op classMask.
Proof.
  unfold OpCode.Class, classMask. change 7 with (Z.ones 3).
  rewrite Z.land_ones by lia.
  apply wrap_small.
  pose proof (Z.mod_pos_bound op (2 ^ 3)). lia.
Qed.

Lemma Class_range (op : Z) : 0 <= OpCode.Class op < 8.
Proof.
  rewrite Class_land. unfold classMask. change 7 with (Z.ones 3).
  rewrite Z.land_ones by lia. apply Z.mod_pos_bound. lia.
Qed.

Lemma Class_cases (op : Z) :
  let cls := OpCode.Class op in
  cls = LdClass \/ cls = LdXClass \/ cls = StClass \/ cls = StXClass \/
  cls = ALUClass \/ cls = JumpClass \/ cls = Jump32Class \/ cls = ALU64Class.
Proof.
  intros cls. pose proof (Class_range op) as H. fold cls in H.
  unfold LdClass, LdXClass, StClass, StXClass, ALUClass, JumpClass,
    Jump32Class, ALU64Class.
  lia.
Qed.

(** The low-byte check of [bpfOpCode] is the test that no bit above the low
    byte is set. *)
Lemma valid_low_byte (op : Z) :
  uint32 op -> (valid op 0xff = true <-> Z.shiftr op 8 = 0).
Proof.
  intros Hop. rewrite valid_iff.
  assert (E : Z.land op (not32 0xff) = Z.shiftl (Z.shiftr op 8) 8).
  { apply Z.bits_inj'. intros i Hi.
    rewrite Z.land_spec, testbit_not32, Z.shiftl_spec by assumption.
    change 255 with (Z.ones 8). rewrite Z.testbit_ones_nonneg by lia.
    destruct (Z.ltb_spec i 8) as [Hlt | Hge].
    - rewrite (Z.testbit_neg_r _ (i - 8)) by lia.
      destruct (Z.ltb_spec i 32); [ | lia ]. now rewrite andb_false_r.
    - rewrite Z.shiftr_spec by lia. replace (i - 8 + 8) with i by lia.
      destruct (Z.ltb_spec i 32) as [ | Hge32 ].
      + now rewrite andb_true_r.
      + rewrite (testbit_high 32 op i Hop Hge32). reflexivity. }
  rewrite E, Z.shiftl_mul_pow2 by lia. change (2 ^ 8) with 256. lia.
Qed.

(** ** Class: the eight variants and the three families *)


(** C10. For every OpCode, valid or not, the class decodes to one of the
    eight declared variants, exactly one of [isLoadOrStore], [IsALU] and
    [IsJump] holds of it, and so the [switch] of [String] never takes its
    default arm, the one that prints [OpCode(0x..)]. *)
Theorem Class_partition (op : Z) :
  In (OpCode.Class op)
     [LdClass; LdXClass; StClass; StXClass;
      ALUClass; JumpClass; Jump32Class; ALU64Class] /\
  ((Class.isLoadOrStore (OpCode.Class op) = true /\
    Class.IsALU (OpCode.Class op) = false /\
    Class.IsJump (OpCode.Class op) = false) \/
   (Class.isLoadOrStore (OpCode.Class op) = false /\
    Class.IsALU (OpCode.Class op) = true /\
    Class.IsJump (OpCode.Class op) = false) \/
   (Class.isLoadOrStore (OpCode.Class op) = false /\
    Class.IsALU (OpCode.Class op) = false /\
    Class.IsJump (OpCode.Class op) = true)) /\
  OpCode.String_case op <> caseDefault.
Proof.
  unfold OpCode.String_case.
  destruct (Class_cases op) as [E | [E | [E | [E | [E | [E | [E | E]]]]]]];
    rewrite E; cbn; repeat split; try discriminate; tauto.
Qed.

(** ** The raw projection *)

(** C7. [bpfOpCode] returns the low byte of an opcode that has no bit above
    the low byte, and the error otherwise: it fails exactly when a bit above
    the low byte is set, and it fails on [InvalidOpCode].  It is the one
    operation whose result type has an error; every other operation of the
    model returns a plain value. *)
Theorem bpfOpCode_low_byte_or_error (op : Z) :
  uint32 op ->
  (Z.shiftr op 8 = 0 -> OpCode.bpfOpCode op = inl (op mod 2 ^ 8)) /\
  (Z.shiftr op 8 <> 0 ->
   OpCode.bpfOpCode op = inr (Errorf_invalid_opcode op)) /\
  ((exists e, OpCode.bpfOpCode op = inr e) <-> Z.shiftr op 8 <> 0) /\
  OpCode.bpfOpCode InvalidOpCode = inr (Errorf_invalid_opcode InvalidOpCode).
Proof.
  intros Hop. pose proof (valid_low_byte op Hop) as Hv.
  assert (Hok : Z.shiftr op 8 = 0 -> OpCode.bpfOpCode op = inl (op mod 2 ^ 8)).
  { intros H0. apply Hv in H0. unfold OpCode.bpfOpCode. rewrite H0. cbn [negb].
    unfold wrap. change 255 with (Z.ones 8).
    rewrite Z.land_ones by lia. now rewrite Z.mod_mod by lia. }
  assert (Herr : Z.shiftr op 8 <> 0 ->
                 OpCode.bpfOpCode op = inr (Errorf_invalid_opcode op)).
  { intros H0. unfold OpCode.bpfOpCode.
    destruct (valid op 255) eqn:E; [ | reflexivity ].
    elim H0. now apply Hv. }
  split; [ exact Hok | ]. split; [ exact Herr | ]. split; [ | reflexivity ].
  split.
  - intros [e He] H0. rewrite (Hok H0) in He. discriminate.
  - intros H0. exists (Errorf_invalid_opcode op). now apply Herr.
Qed.

Lemma bpfOpCode_low_byte_or_error_witness :
  OpCode.bpfOpCode 0x18 = inl 0x18 /\
  OpCode.bpfOpCode 0x1ff18 = inr (Errorf_invalid_opcode 0x1ff18).
Proof.
  split.
  - apply (bpfOpCode_low_byte_or_error 0x18);
      [ unfold uint32; lia | reflexivity ].
  - apply (bpfOpCode_low_byte_or_error 0x1ff18);
      [ unfold uint32; lia | discriminate ].
Defined.

Section Facets.
Context {K : Decls}.

(** [rawInstructions] is 2 on the opcode that [IsDWordLoad] compares with,
    and 1 on every other opcode. *)
Lemma rawInstructions_cases (o : Z) :
  (OpCode.rawInstructions o = 2 <-> o = OpCode.LoadImmOp DWord) /\
  (o <> OpCode.LoadImmOp DWord -> OpCode.rawInstructions o = 1).
Proof.
  unfold OpCode.rawInstructions, OpCode.IsDWordLoad.
  destruct (Z.eqb_spec o (OpCode.LoadImmOp DWord)) as [E | N].
  - split; [ tauto | intros H; now elim H ].
  - split; [ split; [ discriminate | intros E; now elim N ] | reflexivity ].
Qed.

(** ** Facets outside the class *)

(** C4. When the class of an opcode does not admit a facet, the getter
    returns the facet's Invalid sentinel and the setter returns
    [InvalidOpCode] for every argument: [Mode] and [Size] outside load and
    store, [Source] outside jump and ALU, [ALUOp] outside ALU, [JumpOp] outside
    jump, [AtomicOp] unless the class is [StXClass] and the mode
    [AtomicMode]. *)
Theorem facet_outside_class (o v : Z) :
  (Class.isLoadOrStore (OpCode.Class o) = false ->
   OpCode.Mode o = InvalidMode /\ OpCode.Size o = InvalidSize /\
   OpCode.SetMode o v = InvalidOpCode /\ OpCode.SetSize o v = InvalidOpCode) /\
  (Class.isJumpOrALU (OpCode.Class o) = false ->
   OpCode.Source o = InvalidSource /\ OpCode.SetSource o v = InvalidOpCode) /\
  (Class.IsALU (OpCode.Class o) = false ->
   OpCode.ALUOp o = InvalidALUOp /\ OpCode.SetALUOp o v = InvalidOpCode) /\
  (Class.IsJump (OpCode.Class o) = false ->
   OpCode.JumpOp o = InvalidJumpOp /\ OpCode.SetJumpOp o v = InvalidOpCode) /\
  (~ (OpCode.Class o = StXClass /\ OpCode.Mode o = AtomicMode) ->
   OpCode.AtomicOp o = InvalidAtomic /\
   OpCode.SetAtomicOp o v = InvalidOpCode).
Proof.
  split; [ intros Hc | ].
  { unfold OpCode.Mode, OpCode.Size, OpCode.SetMode, OpCode.SetSize.
    rewrite Hc. cbn [negb orb]. tauto. }
  split; [ intros Hc | ].
  { unfold OpCode.Source, OpCode.SetSource.
    rewrite Hc. cbn [negb orb]. tauto. }
  split; [ intros Hc | ].
  { unfold OpCode.ALUOp, OpCode.SetALUOp.
    rewrite Hc. cbn [negb orb]. tauto. }
  split; [ intros Hc | intros Hn ].
  { unfold OpCode.JumpOp, OpCode.SetJumpOp.
    rewrite Hc. cbn [negb orb]. tauto. }
  unfold OpCode.AtomicOp, OpCode.SetAtomicOp.
  destruct (Z.eqb_spec (OpCode.Class o) StXClass) as [Ec | Nc];
    [ | cbn [negb orb]; tauto ].
  destruct (Z.eqb_spec (OpCode.Mode o) AtomicMode) as [Em | Nm];
    [ | cbn [negb orb]; tauto ].
  elim Hn. now split.
Qed.

(** ** Source and Endianness *)

(** C6. [Source] returns [InvalidSource] whenever [ALUOp] is [Swap], on
    an opcode whose class admits the Source facet; [Endianness] returns
    [InvalidEndian] whenever [ALUOp] is not [Swap]; so the two facets that
    share bit 3 are never both readable on one opcode. *)
Theorem Source_Endianness_exclusive (op : Z) :
  (OpCode.ALUOp op = Swap -> OpCode.Source op = InvalidSource) /\
  (Swap <> InvalidALUOp -> OpCode.ALUOp op = Swap ->
   Class.isJumpOrALU (OpCode.Class op) = true) /\
  (OpCode.ALUOp op <> Swap -> OpCode.Endianness op = InvalidEndian) /\
  ~ (OpCode.Source op <> InvalidSource /\
     OpCode.Endianness op <> InvalidEndian).
Proof.
  assert (S : OpCode.ALUOp op = Swap -> OpCode.Source op = InvalidSource).
  { intros E. unfold OpCode.Source. rewrite E, Z.eqb_refl.
    now rewrite orb_true_r. }
  assert (N : OpCode.ALUOp op <> Swap -> OpCode.Endianness op = InvalidEndian).
  { intros E. unfold OpCode.Endianness.
    now destruct (Z.eqb_spec (OpCode.ALUOp op) Swap). }
  repeat split; try assumption.
  - intros Hs E. unfold OpCode.ALUOp in E. unfold Class.isJumpOrALU.
    destruct (Class.IsALU (OpCode.Class op)).
    + now rewrite orb_true_r.
    + cbn in E. now elim Hs.
  - intros [Hs He].
    destruct (Z.eq_dec (OpCode.ALUOp op) Swap) as [E | E]; auto.
Qed.

End Facets.

(** The first scenario of the specification, at the encodings of [uapi]. *)
Example LoadImmOp_DWord_uapi :
  OpCode.LoadImmOp (K:=uapi) (DWord (Decls:=uapi)) = 0x18 /\
  OpCode.Class 0x18 = LdClass /\
  OpCode.Mode (K:=uapi) 0x18 = ImmMode (Decls:=uapi) /\
  OpCode.Size (K:=uapi) 0x18 = DWord (Decls:=uapi) /\
  OpCode.rawInstructions (K:=uapi) 0x18 = 2 /\
  OpCode.rawInstructions (K:=uapi) 0x61 = 1 /\
  OpCode.bpfOpCode 0x18 = inl 0x18 /\
  OpCode.String_ (K:=uapi) 0x18 = "LdImmDW".
Proof. repeat split. Qed.

Lemma facet_outside_class_witness :
  OpCode.Mode (K:=uapi) 0x07 = 0xff /\
  OpCode.SetMode (K:=uapi) 0x07 0x60 = InvalidOpCode /\
  OpCode.JumpOp (K:=uapi) 0x61 = 0xff /\
  OpCode.SetJumpOp (K:=uapi) 0x61 0x10 = InvalidOpCode /\
  OpCode.AtomicOp (K:=uapi) 0x63 = 0xffffffff /\
  OpCode.SetAtomicOp (K:=uapi) 0x63 0x0100 = InvalidOpCode.
Proof.
  destruct (facet_outside_class (K:=uapi) 0x07 0x60) as (Hm & _).
  destruct (facet_outside_class (K:=uapi) 0x61 0x10) as (_ & _ & _ & Hj & _).
  destruct (facet_outside_class (K:=uapi) 0x63 0x0100) as (_ & _ & _ & _ & Ha).
  destruct (Hm eq_refl) as (M1 & _ & M2 & _).
  destruct (Hj eq_refl) as (J1 & J2).
  destruct Ha as (A1 & A2).
  { intros [_ Hmode]. vm_compute in Hmode. discriminate. }
  exact (conj M1 (conj M2 (conj J1 (conj J2 (conj A1 A2))))).
Defined.

Lemma Source_Endianness_exclusive_witness :
  OpCode.ALUOp (K:=uapi) 0xdc = 0xd0 /\
  OpCode.Source (K:=uapi) 0xdc = 0xff /\
  Class.isJumpOrALU (OpCode.Class 0xdc) = true /\
  OpCode.Endianness (K:=uapi) 0x0c = 0xff.
Proof.
  destruct (Source_Endianness_exclusive (K:=uapi) 0xdc) as (Hs & Hc & _).
  destruct (Source_Endianness_exclusive (K:=uapi) 0x0c) as (_ & _ & He & _).
  split; [ reflexivity | ].
  split; [ exact (Hs eq_refl) | ].
  split; [ apply Hc; [ discriminate | reflexivity ] | ].
  apply He. discriminate.
Defined.

(** ** Setters and the class field *)

Lemma valid_toOpCode_0 (m : Z) : valid (toOpCode 0) m = true.
Proof. reflexivity. Qed.

Lemma toOpCode_small (w v : Z) :
  w <= 32 -> 0 <= v < 2 ^ w -> toOpCode v = v /\ wrap w v = v.
Proof.
  intros Hw Hv.
  assert (0 <= w).
  { destruct (Z.ltb_spec w 0) as [Hneg | ]; [ | assumption ].
    rewrite Z.pow_neg_r in Hv by assumption. lia. }
  assert (2 ^ w <= 2 ^ 32) by (apply Z.pow_le_mono_r; lia).
  split; apply wrap_small; lia.
Qed.

(** A setter that passes its guards leaves the class as it was, provided the
    mask it writes through has no bit in the class field. *)
Lemma Class_replace (op m v : Z) :
  Z.land m classMask = 0 -> valid (toOpCode v) m = true ->
  OpCode.Class (Z.lor (Z.land op (not32 m)) (toOpCode v)) = OpCode.Class op.
Proof.
  intros Hd Hv. rewrite !Class_land.
  apply replace_other_field; try assumption.
  - unfold uint32, classMask. lia.
  - apply wrap_uint32.
Qed.

(** The class of a load or store is not that of an ALU operation or a jump,
    and the other way round. *)
Lemma IsJump_not_IsALU (cls : Z) :
  Class.IsJump cls = true -> Class.IsALU cls = false.
Proof.
  unfold Class.IsJump, Class.IsALU, JumpClass, Jump32Class, ALUClass,
    ALU64Class.
  intros H. apply orb_true_iff in H. apply orb_false_iff.
  destruct H as [H | H]; apply Z.eqb_eq in H; subst cls; now split.
Qed.

Section ClassInertia.
Context {K : Decls}.

(** No facet mask reaches into the class field, the low three bits. *)
Hypothesis modeMask_class : Z.land modeMask classMask = 0.
Hypothesis sizeMask_class : Z.land sizeMask classMask = 0.
Hypothesis atomicMask_class : Z.land atomicMask classMask = 0.
Hypothesis sourceMask_class : Z.land sourceMask classMask = 0.
Hypothesis aluMask_class : Z.land aluMask classMask = 0.
Hypothesis jumpMask_class : Z.land jumpMask classMask = 0.

(** C5. For every opcode, every setter and every argument: when the
    setter succeeds, that is, its result is not [InvalidOpCode], the class of
    the result is the class of the opcode. *)
Theorem Class_inertia (o v : Z) :
  (OpCode.SetMode o v <> InvalidOpCode ->
   OpCode.Class (OpCode.SetMode o v) = OpCode.Class o) /\
  (OpCode.SetSize o v <> InvalidOpCode ->
   OpCode.Class (OpCode.SetSize o v) = OpCode.Class o) /\
  (OpCode.SetAtomicOp o v <> InvalidOpCode ->
   OpCode.Class (OpCode.SetAtomicOp o v) = OpCode.Class o) /\
  (OpCode.SetSource o v <> InvalidOpCode ->
   OpCode.Class (OpCode.SetSource o v) = OpCode.Class o) /\
  (OpCode.SetALUOp o v <> InvalidOpCode ->
   OpCode.Class (OpCode.SetALUOp o v) = OpCode.Class o) /\
  (OpCode.SetJumpOp o v <> InvalidOpCode ->
   OpCode.Class (OpCode.SetJumpOp o v) = OpCode.Class o).
Proof.
  split; [ | split; [ | split; [ | split; [ | split ] ] ] ].
  - unfold OpCode.SetMode.
    destruct (Class.isLoadOrStore (OpCode.Class o)); cbn [negb orb];
      [ | intros H; now elim H ].
    destruct (valid (toOpCode v) modeMask) eqn:Ev; cbn [negb];
      [ | intros H; now elim H ].
    intros _. now apply Class_replace.
  - unfold OpCode.SetSize.
    destruct (Class.isLoadOrStore (OpCode.Class o)); cbn [negb orb];
      [ | intros H; now elim H ].
    destruct (valid (toOpCode v) sizeMask) eqn:Ev; cbn [negb];
      [ | intros H; now elim H ].
    intros _. now apply Class_replace.
  - unfold OpCode.SetAtomicOp.
    destruct (OpCode.Class o =? StXClass); cbn [negb orb];
      [ | intros H; now elim H ].
    destruct (OpCode.Mode o =? AtomicMode); cbn [negb orb];
      [ | intros H; now elim H ].
    destruct (valid (toOpCode v) atomicMask) eqn:Ev; cbn [negb];
      [ | intros H; now elim H ].
    intros _. now apply Class_replace.
  - unfold OpCode.SetSource.
    destruct (Class.isJumpOrALU (OpCode.Class o)); cbn [negb orb];
      [ | intros H; now elim H ].
    destruct (valid (toOpCode v) sourceMask) eqn:Ev; cbn [negb];
      [ | intros H; now elim H ].
    intros _. now apply Class_replace.
  - unfold OpCode.SetALUOp.
    destruct (Class.IsALU (OpCode.Class o)); cbn [negb orb];
      [ | intros H; now elim H ].
    destruct (valid (toOpCode v) aluMask) eqn:Ev; cbn [negb];
      [ | intros H; now elim H ].
    intros _. now apply Class_replace.
  - unfold OpCode.SetJumpOp.
    destruct (Class.IsJump (OpCode.Class o)); cbn [negb orb];
      [ | intros H; now elim H ].
    destruct (valid (toOpCode v) jumpMask) eqn:Ev; cbn [negb];
      [ | intros H; now elim H ].
    cbv zeta.
    destruct (OpCode.JumpOp _ =? InvalidJumpOp);
      [ intros H; now elim H | ].
    intros _. now apply Class_replace.
Qed.

End ClassInertia.

Lemma Class_inertia_witness :
  OpCode.Class (OpCode.SetMode (K:=uapi) 0x61 0x80) = OpCode.Class 0x61 /\
  OpCode.Class (OpCode.SetJumpOp (K:=uapi) 0x1d 0xa0) = OpCode.Class 0x1d.
Proof.
  destruct (Class_inertia (K:=uapi) eq_refl eq_refl eq_refl eq_refl eq_refl
              eq_refl 0x61 0x80) as (Hm & _).
  destruct (Class_inertia (K:=uapi) eq_refl eq_refl eq_refl eq_refl eq_refl
              eq_refl 0x1d 0xa0) as (_ & _ & _ & _ & _ & Hj).
  split; [ apply Hm | apply Hj ]; discriminate.
Defined.

(** ** Setting a facet to the value it has *)

Lemma set_field_back (op m w : Z) :
  uint32 op -> 0 <= m < 2 ^ w ->
  valid (toOpCode (wrap w (Z.land op m))) m = true /\
  Z.lor (Z.land op (not32 m)) (toOpCode (wrap w (Z.land op m))) = op.
Proof.
  intros Hop Hm.
  assert (Hw : 0 <= w).
  { destruct (Z.ltb_spec w 0) as [Hneg | ]; [ | assumption ].
    rewrite Z.pow_neg_r in Hm by assumption. lia. }
  split.
  - now apply valid_field.
  - now apply replace_same_field.
Qed.

Section RoundTrip.
Context {K : Decls}.

(** Each mask fits the facet type that the getter converts to. *)
Hypothesis modeMask_fits : 0 <= modeMask < 2 ^ Mode_bits.
Hypothesis sizeMask_fits : 0 <= sizeMask < 2 ^ Size_bits.
Hypothesis atomicMask_fits : 0 <= atomicMask < 2 ^ AtomicOp_bits.
Hypothesis sourceMask_fits : 0 <= sourceMask < 2 ^ Source_bits.
Hypothesis aluMask_fits : 0 <= aluMask < 2 ^ ALUOp_bits.
Hypothesis jumpMask_fits : 0 <= jumpMask < 2 ^ JumpOp_bits.

(** [Swap] is an operation, not the sentinel; the sentinels of Source and
    JumpOp have a bit outside their masks. *)
Hypothesis Swap_not_sentinel : Swap <> InvalidALUOp.
Hypothesis InvalidSource_outside :
  valid (toOpCode InvalidSource) sourceMask = false.
Hypothesis InvalidJumpOp_outside :
  valid (toOpCode InvalidJumpOp) jumpMask = false.

Lemma JumpOp_field (o : Z) :
  OpCode.JumpOp o <> InvalidJumpOp ->
  OpCode.JumpOp o = wrap JumpOp_bits (Z.land o jumpMask).
Proof.
  unfold OpCode.JumpOp.
  destruct (negb (Class.IsJump (OpCode.Class o)));
    [ intros H; now elim H | ].
  cbv zeta.
  destruct ((OpCode.Class o =? Jump32Class) && _);
    [ intros H; now elim H | reflexivity ].
Qed.

(** C3, as the code has it.  For every opcode [o], setting a facet that
    the class admits to its own current value gives [o] back: Mode and Size on
    load and store; ALUOp on the ALU classes, and Source there unless the
    operation is [Swap]; Source on the jump classes, and JumpOp there unless
    [JumpOp] reads [InvalidJumpOp]; AtomicOp on [StXClass] in [AtomicMode].
    On a [Swap] opcode [Source] reads [InvalidSource], and on a jump opcode
    whose [JumpOp] reads [InvalidJumpOp] the getter gives the sentinel: there
    the setter returns [InvalidOpCode]. *)
Theorem set_get_round_trip (o : Z) :
  uint32 o ->
  (Class.isLoadOrStore (OpCode.Class o) = true ->
   OpCode.SetMode o (OpCode.Mode o) = o /\
   OpCode.SetSize o (OpCode.Size o) = o) /\
  (Class.IsALU (OpCode.Class o) = true ->
   OpCode.SetALUOp o (OpCode.ALUOp o) = o /\
   (OpCode.ALUOp o <> Swap -> OpCode.SetSource o (OpCode.Source o) = o) /\
   (OpCode.ALUOp o = Swap ->
    OpCode.SetSource o (OpCode.Source o) = InvalidOpCode)) /\
  (Class.IsJump (OpCode.Class o) = true ->
   OpCode.SetSource o (OpCode.Source o) = o /\
   (OpCode.JumpOp o <> InvalidJumpOp ->
    OpCode.SetJumpOp o (OpCode.JumpOp o) = o) /\
   (OpCode.JumpOp o = InvalidJumpOp ->
    OpCode.SetJumpOp o (OpCode.JumpOp o) = InvalidOpCode)) /\
  (OpCode.Class o = StXClass -> OpCode.Mode o = AtomicMode ->
   OpCode.SetAtomicOp o (OpCode.AtomicOp o) = o).
Proof.
  intros Ho.
  destruct (set_field_back o modeMask Mode_bits Ho modeMask_fits)
    as [Vmode Emode].
  destruct (set_field_back o sizeMask Size_bits Ho sizeMask_fits)
    as [Vsize Esize].
  destruct (set_field_back o atomicMask AtomicOp_bits Ho atomicMask_fits)
    as [Vatomic Eatomic].
  destruct (set_field_back o sourceMask Source_bits Ho sourceMask_fits)
    as [Vsource Esource].
  destruct (set_field_back o aluMask ALUOp_bits Ho aluMask_fits)
    as [Valu Ealu].
  destruct (set_field_back o jumpMask JumpOp_bits Ho jumpMask_fits)
    as [Vjump Ejump].
  split; [ | split; [ | split ] ].
  - intros Hc. unfold OpCode.SetMode, OpCode.SetSize, OpCode.Mode, OpCode.Size.
    rewrite Hc. cbn [negb orb]. rewrite Vmode, Vsize. cbn [negb].
    now split.
  - intros Hc.
    assert (Hja : Class.isJumpOrALU (OpCode.Class o) = true).
    { unfold Class.isJumpOrALU. rewrite Hc. apply orb_true_r. }
    split; [ | split ].
    + unfold OpCode.SetALUOp, OpCode.ALUOp. rewrite Hc. cbn [negb orb].
      now rewrite Valu.
    + intros Hn. apply Z.eqb_neq in Hn.
      unfold OpCode.SetSource, OpCode.Source. rewrite Hja, Hn.
      cbn [negb orb]. now rewrite Vsource.
    + intros He. apply Z.eqb_eq in He.
      unfold OpCode.SetSource, OpCode.Source. rewrite Hja, He.
      cbn [negb orb]. now rewrite InvalidSource_outside.
  - intros Hc.
    assert (Hja : Class.isJumpOrALU (OpCode.Class o) = true).
    { unfold Class.isJumpOrALU. now rewrite Hc. }
    assert (Hn : (OpCode.ALUOp o =? Swap) = false).
    { unfold OpCode.ALUOp. rewrite (IsJump_not_IsALU _ Hc). cbn [negb].
      apply Z.eqb_neq. congruence. }
    split; [ | split ].
    + unfold OpCode.SetSource, OpCode.Source. rewrite Hja, Hn.
      cbn [negb orb]. now rewrite Vsource.
    + intros Hj. rewrite (JumpOp_field o Hj). unfold OpCode.SetJumpOp.
      rewrite Hc, Vjump. cbn [negb orb]. cbv zeta. rewrite Ejump.
      apply Z.eqb_neq in Hj. now rewrite Hj.
    + intros Hj. rewrite Hj. unfold OpCode.SetJumpOp.
      rewrite Hc, InvalidJumpOp_outside. reflexivity.
  - intros Hc Hm. apply Z.eqb_eq in Hc, Hm.
    unfold OpCode.SetAtomicOp, OpCode.AtomicOp. rewrite Hc, Hm.
    cbn [negb orb]. now rewrite Vatomic.
Qed.

End RoundTrip.

Lemma set_get_round_trip_witness :
  OpCode.SetMode (K:=uapi) 0x61 (OpCode.Mode (K:=uapi) 0x61) = 0x61 /\
  OpCode.SetSource (K:=uapi) 0x0c (OpCode.Source (K:=uapi) 0x0c) = 0x0c /\
  OpCode.SetJumpOp (K:=uapi) 0x1d (OpCode.JumpOp (K:=uapi) 0x1d) = 0x1d /\
  OpCode.SetAtomicOp (K:=uapi) 0xdb (OpCode.AtomicOp (K:=uapi) 0xdb) = 0xdb.
Proof.
  assert (R : forall o, uint32 o -> _) by
    (intros o; apply (set_get_round_trip (K:=uapi)); uapi_side).
  destruct (R 0x61 ltac:(uint32_const)) as (Hls & _).
  destruct (R 0x0c ltac:(uint32_const)) as (_ & Halu & _).
  destruct (R 0x1d ltac:(uint32_const)) as (_ & _ & Hj & _).
  destruct (R 0xdb ltac:(uint32_const)) as (_ & _ & _ & Hat).
  split; [ apply (Hls eq_refl) | ].
  split; [ apply (Halu eq_refl); discriminate | ].
  split; [ apply (Hj eq_refl); discriminate | ].
  apply Hat; reflexivity.
Defined.

(** C3 as stated fails on a byte-swap opcode: [0xd4] is the
    ALU-class [Swap] opcode, it has no bit above the low byte, its class admits
    the Source facet, and setting Source to what [Source] reads gives
    [InvalidOpCode]. *)
Lemma set_get_round_trip_Swap_counterexample :
  valid 0xd4 0xff = true /\
  Class.IsALU (OpCode.Class 0xd4) = true /\
  OpCode.ALUOp (K:=uapi) 0xd4 = Swap (Decls:=uapi) /\
  OpCode.SetSource (K:=uapi) 0xd4 (OpCode.Source (K:=uapi) 0xd4)
    = InvalidOpCode /\
  OpCode.SetSource (K:=uapi) 0xd4 (OpCode.Source (K:=uapi) 0xd4) <> 0xd4.
Proof. repeat split. discriminate. Qed.

(** ** Jump operations on Jump32Class *)

Section Jump32.
Context {K : Decls}.

(** The jump mask is a 32-bit constant without a bit in the class field;
    [JumpOp] is at most 32 bits wide and [Exit], [Call] and [Ja] are values of
    that type; [Ja] is covered by the mask and is neither [Exit], nor [Call],
    nor the sentinel. *)
Hypothesis jumpMask_uint32 : uint32 jumpMask.
Hypothesis jumpMask_class : Z.land jumpMask classMask = 0.
Hypothesis JumpOp_bits_32 : JumpOp_bits <= 32.
Hypothesis Exit_typed : 0 <= Exit < 2 ^ JumpOp_bits.
Hypothesis Call_typed : 0 <= Call < 2 ^ JumpOp_bits.
Hypothesis Ja_typed : 0 <= Ja < 2 ^ JumpOp_bits.
Hypothesis Ja_valid : valid (toOpCode Ja) jumpMask = true.
Hypothesis Ja_not_Exit : Ja <> Exit.
Hypothesis Ja_not_Call : Ja <> Call.
Hypothesis Ja_not_sentinel : Ja <> InvalidJumpOp.

(** After a replacement that passes the mask check, the jump field is the
    value written and the class is the old one. *)
Lemma jumpField_replace (op j : Z) :
  0 <= j < 2 ^ JumpOp_bits -> valid (toOpCode j) jumpMask = true ->
  OpCode.jumpField (Z.lor (Z.land op (not32 jumpMask)) (toOpCode j)) = j.
Proof.
  intros Hj Hv. unfold OpCode.jumpField.
  rewrite replace_this_field; try assumption.
  - destruct (toOpCode_small JumpOp_bits j JumpOp_bits_32 Hj) as [E1 E2].
    now rewrite E1.
  - apply wrap_uint32.
Qed.

Lemma JumpOp_Jump32 (op : Z) :
  OpCode.Class op = Jump32Class ->
  OpCode.JumpOp op =
    if (OpCode.jumpField op =? Exit) || (OpCode.jumpField op =? Call)
    then InvalidJumpOp else OpCode.jumpField op.
Proof.
  intros Hc. unfold OpCode.JumpOp, OpCode.jumpField. rewrite Hc. reflexivity.
Qed.

Lemma SetJumpOp_Jump32 (op j : Z) :
  OpCode.Class op = Jump32Class ->
  0 <= j < 2 ^ JumpOp_bits -> valid (toOpCode j) jumpMask = true ->
  OpCode.SetJumpOp op j =
    if (if (j =? Exit) || (j =? Call) then InvalidJumpOp else j)
         =? InvalidJumpOp
    then InvalidOpCode
    else Z.lor (Z.land op (not32 jumpMask)) (toOpCode j).
Proof.
  intros Hc Hj Hv. unfold OpCode.SetJumpOp.
  rewrite Hc, Hv. cbn [Class.IsJump negb orb]. cbv zeta.
  rewrite JumpOp_Jump32 by (rewrite Class_replace; assumption).
  now rewrite jumpField_replace by assumption.
Qed.

(** C1, as the code has it.  On an opcode of class [Jump32Class] the jump
    operations [Exit] and [Call] are invalid: [JumpOp] returns [InvalidJumpOp]
    when the jump field encodes [Exit] or [Call], and [SetJumpOp] returns
    [InvalidOpCode] for [Exit] and for [Call].  [Ja] is not rejected:
    [JumpOp] returns [Ja] when the field encodes it, and [SetJumpOp] with [Ja]
    returns the opcode with [Ja] in its jump field, which is not
    [InvalidOpCode]. *)
Theorem Jump32_Exit_Call_invalid (op : Z) :
  OpCode.Class op = Jump32Class ->
  (OpCode.jumpField op = Exit \/ OpCode.jumpField op = Call ->
   OpCode.JumpOp op = InvalidJumpOp) /\
  OpCode.SetJumpOp op Exit = InvalidOpCode /\
  OpCode.SetJumpOp op Call = InvalidOpCode /\
  (OpCode.jumpField op = Ja -> OpCode.JumpOp op = Ja) /\
  OpCode.SetJumpOp op Ja
    = Z.lor (Z.land op (not32 jumpMask)) (toOpCode Ja) /\
  OpCode.SetJumpOp op Ja <> InvalidOpCode.
Proof.
  intros Hc.
  assert (Hset : forall j, 0 <= j < 2 ^ JumpOp_bits ->
                 j = Exit \/ j = Call -> OpCode.SetJumpOp op j = InvalidOpCode).
  { intros j Hj Hec.
    destruct (valid (toOpCode j) jumpMask) eqn:Hv.
    - rewrite SetJumpOp_Jump32 by assumption.
      assert (E : (j =? Exit) || (j =? Call) = true).
      { apply orb_true_iff.
        destruct Hec; [ left | right ]; now apply Z.eqb_eq. }
      now rewrite E, Z.eqb_refl.
    - unfold OpCode.SetJumpOp. rewrite Hv. cbn [negb].
      now rewrite orb_true_r. }
  assert (Hja : OpCode.SetJumpOp op Ja
                = Z.lor (Z.land op (not32 jumpMask)) (toOpCode Ja)).
  { rewrite SetJumpOp_Jump32 by assumption.
    apply Z.eqb_neq in Ja_not_Exit, Ja_not_Call, Ja_not_sentinel.
    rewrite Ja_not_Exit, Ja_not_Call. cbn [orb].
    now rewrite Ja_not_sentinel. }
  split; [ | split; [ | split; [ | split; [ | split ] ] ] ].
  - intros Hf. rewrite JumpOp_Jump32 by assumption.
    assert (E : (OpCode.jumpField op =? Exit)
                || (OpCode.jumpField op =? Call) = true).
    { apply orb_true_iff. destruct Hf; [ left | right ]; now apply Z.eqb_eq. }
    now rewrite E.
  - apply Hset; [ assumption | now left ].
  - apply Hset; [ assumption | now right ].
  - intros Hf. rewrite JumpOp_Jump32, Hf by assumption.
    apply Z.eqb_neq in Ja_not_Exit, Ja_not_Call.
    now rewrite Ja_not_Exit, Ja_not_Call.
  - exact Hja.
  - rewrite Hja. intros E.
    apply (f_equal OpCode.Class) in E.
    rewrite Class_replace, Hc in E by assumption.
    discriminate.
Qed.

End Jump32.

Lemma Jump32_Exit_Call_invalid_witness :
  OpCode.JumpOp (K:=uapi) 0x96 = 0xff /\
  OpCode.SetJumpOp (K:=uapi) 0x16 0x90 = InvalidOpCode /\
  OpCode.SetJumpOp (K:=uapi) 0x16 0x80 = InvalidOpCode /\
  OpCode.SetJumpOp (K:=uapi) 0x16 0x00 = 0x06.
Proof.
  assert (R : forall op, OpCode.Class op = Jump32Class -> _) by
    (intros op; apply (Jump32_Exit_Call_invalid (K:=uapi)); uapi_side).
  destruct (R 0x96 eq_refl) as (Hget & _).
  destruct (R 0x16 eq_refl) as (_ & Hexit & Hcall & _ & Hja & _).
  split; [ apply Hget; now left | ].
  split; [ exact Hexit | ].
  split; [ exact Hcall | exact Hja ].
Defined.

(** C1 as stated fails for [Ja]: [0x06] is the opcode of class
    [Jump32Class] whose jump field is [Ja]; [JumpOp] reads [Ja], not the
    sentinel, and [SetJumpOp] with [Ja] succeeds. *)
Lemma Jump32_Ja_counterexample :
  OpCode.Class 0x06 = Jump32Class /\
  OpCode.JumpOp (K:=uapi) 0x06 = Ja (Decls:=uapi) /\
  OpCode.JumpOp (K:=uapi) 0x06 <> InvalidJumpOp (Decls:=uapi) /\
  OpCode.SetJumpOp (K:=uapi) 0x16 (Ja (Decls:=uapi)) = 0x06 /\
  OpCode.SetJumpOp (K:=uapi) 0x16 (Ja (Decls:=uapi)) <> InvalidOpCode.
Proof. repeat split; discriminate. Qed.

(** ** Mutating the sentinel *)

(** Clearing a field of [InvalidOpCode] that has a bit among the low sixteen,
    and does not cover bits 8 to 15, gives neither the sentinel nor a value
    confined to the low byte. *)
Lemma clear_field_of_InvalidOpCode (m : Z) :
  Z.land m 0xffff <> 0 -> Z.land 0xff00 (not32 m) <> 0 ->
  Z.land InvalidOpCode (not32 m) <> InvalidOpCode /\
  valid (Z.land InvalidOpCode (not32 m)) 0xff = false.
Proof.
  intros Hlow Hhigh. unfold InvalidOpCode. split.
  - intros E. apply Hlow. apply Z.bits_inj'. intros i Hi.
    apply (f_equal (fun z => Z.testbit z i)) in E.
    rewrite Z.land_spec, testbit_not32 in E by assumption.
    rewrite Z.land_spec, Z.bits_0.
    change 65535 with (Z.ones 16) in *.
    rewrite Z.testbit_ones_nonneg in * by lia.
    destruct (Z.ltb_spec i 16) as [Hlt | Hge]; [ | apply andb_false_r ].
    destruct (Z.ltb_spec i 32); [ | lia ].
    now destruct (Z.testbit m i).
  - unfold valid. apply Z.eqb_neq.
    rewrite <- Z.land_assoc, (Z.land_comm (not32 m)), Z.land_assoc.
    exact Hhigh.
Qed.

Section Sentinel.
Context {K : Decls}.

(** The sentinel of ALUOp has a bit outside the ALU mask.  The ALU mask and
    the source mask each have a bit among the low sixteen, and neither covers
    all of bits 8 to 15. *)
Hypothesis ALUOp_bits_nonneg : 0 <= ALUOp_bits.
Hypothesis InvalidALUOp_outside :
  valid (toOpCode InvalidALUOp) aluMask = false.
Hypothesis aluMask_low : Z.land aluMask 0xffff <> 0.
Hypothesis aluMask_high : Z.land 0xff00 (not32 aluMask) <> 0.
Hypothesis sourceMask_low : Z.land sourceMask 0xffff <> 0.
Hypothesis sourceMask_high : Z.land 0xff00 (not32 sourceMask) <> 0.

(** C9. [InvalidOpCode] is not absorbing under further mutation: its low
    three bits decode to [ALU64Class], so [ALUOp] of it is not
    [InvalidALUOp], and for some arguments covered by the mask [SetALUOp] and
    [SetSource] return, on [InvalidOpCode], a value that is neither
    [InvalidOpCode] nor confined to the low byte. *)
Theorem InvalidOpCode_not_absorbing :
  OpCode.Class InvalidOpCode = ALU64Class /\
  OpCode.ALUOp InvalidOpCode <> InvalidALUOp /\
  (exists a,
     valid (toOpCode a) aluMask = true /\
     OpCode.SetALUOp InvalidOpCode a <> InvalidOpCode /\
     valid (OpCode.SetALUOp InvalidOpCode a) 0xff = false) /\
  (exists s,
     valid (toOpCode s) sourceMask = true /\
     OpCode.SetSource InvalidOpCode s <> InvalidOpCode /\
     valid (OpCode.SetSource InvalidOpCode s) 0xff = false).
Proof.
  split; [ reflexivity | ]. split; [ | split ].
  - unfold OpCode.ALUOp.
    change (Class.IsALU (OpCode.Class InvalidOpCode)) with true. cbn [negb].
    intros E.
    assert (V : valid (toOpCode (wrap ALUOp_bits
                                   (Z.land InvalidOpCode aluMask)))
                  aluMask = true).
    { apply valid_field; [ unfold uint32, InvalidOpCode; lia | assumption ]. }
    rewrite E, InvalidALUOp_outside in V. discriminate.
  - exists 0. split; [ reflexivity | ].
    unfold OpCode.SetALUOp.
    change (Class.IsALU (OpCode.Class InvalidOpCode)) with true.
    change (toOpCode 0) with 0. rewrite valid_toOpCode_0, Z.lor_0_r.
    now apply clear_field_of_InvalidOpCode.
  - exists 0. split; [ reflexivity | ].
    unfold OpCode.SetSource.
    change (Class.isJumpOrALU (OpCode.Class InvalidOpCode)) with true.
    change (toOpCode 0) with 0. rewrite valid_toOpCode_0, Z.lor_0_r.
    now apply clear_field_of_InvalidOpCode.
Qed.

End Sentinel.

Lemma InvalidOpCode_not_absorbing_witness :
  OpCode.ALUOp (K:=uapi) InvalidOpCode <> 0xff /\
  (exists a,
     valid (toOpCode a) 0xf0 = true /\
     OpCode.SetALUOp (K:=uapi) InvalidOpCode a <> InvalidOpCode /\
     valid (OpCode.SetALUOp (K:=uapi) InvalidOpCode a) 0xff = false).
Proof.
  assert (R : _) by
    (apply (InvalidOpCode_not_absorbing (K:=uapi)); uapi_side).
  destruct R as (_ & Halu & Hset & _).
  exact (conj Halu Hset).
Defined.

(** ** The mnemonic *)

Lemma append_assoc (a b c : string) : (a ++ b) ++ c = a ++ (b ++ c).
Proof.
  induction a as [ | x a IH ]; cbn; [ reflexivity | now rewrite IH ].
Qed.

Lemma prefix_append (s r : string) : prefix s (s ++ r) = true.
Proof.
  induction s as [ | c s IH ]; cbn.
  - now destruct r.
  - destruct (ascii_dec c c) as [ _ | N ]; [ exact IH | now elim N ].
Qed.

(** A string contains what was appended in its middle. *)
Lemma Contains_append (p s r : string) : Contains (p ++ (s ++ r)) s = true.
Proof.
  unfold Contains. induction p as [ | c p IH ]; cbn [append].
  - destruct (s ++ r) as [ | c x ] eqn:E.
    + destruct s; [ reflexivity | discriminate ].
    + cbn [index]. rewrite <- E, prefix_append. reflexivity.
  - cbn [index].
    destruct (prefix s (String c (p ++ s ++ r))); [ reflexivity | ].
    destruct (index 0 s (p ++ s ++ r)); [ reflexivity | discriminate ].
Qed.

(** The mnemonic of a load or store in [AtomicMode]: the class name without
    [Class], then the mode name without [Mode], then the rest. *)
Lemma String_AtomicMode {K : Decls} (o : Z) :
  Mode_String AtomicMode = "AtomicMode" ->
  Class.isLoadOrStore (OpCode.Class o) = true ->
  OpCode.Mode o = AtomicMode ->
  exists rest,
    OpCode.String_ o
    = TrimSuffix (Class_String (OpCode.Class o)) "Class"
      ++ ("Atomic" ++ rest).
Proof.
  intros Hname Hc Hm. unfold OpCode.String_, OpCode.String_case.
  rewrite Hc, Hm, Hname.
  change (TrimSuffix "AtomicMode" "Mode") with "Atomic".
  cbn [append].
  destruct (negb (OpCode.AtomicOp o =? InvalidAtomic));
    destruct (OpCode.Size o =? DWord);
    destruct (OpCode.Size o =? Word);
    destruct (OpCode.Size o =? Half);
    destruct (OpCode.Size o =? Byte);
    rewrite ?append_assoc;
    solve [ eexists; reflexivity | exists EmptyString; reflexivity ].
Qed.

Lemma byte_opcodes_In (o : Z) : 0 <= o < 256 -> In o byte_opcodes.
Proof.
  intros Ho. unfold byte_opcodes.
  rewrite <- (Z2Nat.id o) by lia.
  apply in_map, in_seq. lia.
Qed.

Lemma suffix_scan_bytes : forallb suffix_scan byte_opcodes = true.
Proof. vm_compute. reflexivity. Qed.

(** C8, as the code has it.  [String] is a function of the opcode alone:
    equal opcodes have equal mnemonics, whatever the name tables.  The mode
    name is written with its suffix [Mode] stripped, which for [AtomicMode]
    leaves [Atomic]: the mnemonic of every load or store in [AtomicMode]
    contains [Atomic].  Under the name tables of [uapi], the mnemonic of an
    opcode without a bit above the low byte never contains [Class] or
    [Source], does not contain [Mode] when the mode has a name (the encodings
    0xa0 and 0xe0 have none), and contains [Atomic] exactly when the mode is
    [AtomicMode]. *)
Theorem String_suffixes :
  (forall (K : Decls) (o1 o2 : Z),
     o1 = o2 -> OpCode.String_ o1 = OpCode.String_ o2) /\
  (forall (K : Decls) (o : Z),
     Mode_String AtomicMode = "AtomicMode" ->
     Class.isLoadOrStore (OpCode.Class o) = true ->
     OpCode.Mode o = AtomicMode ->
     Contains (OpCode.String_ o) "Atomic" = true) /\
  (forall o : Z,
     valid o 0xff = true -> uint32 o ->
     Contains (OpCode.String_ (K:=uapi) o) "Class" = false /\
     Contains (OpCode.String_ (K:=uapi) o) "Source" = false /\
     (OpCode.Mode (K:=uapi) o <> 0xa0 -> OpCode.Mode (K:=uapi) o <> 0xe0 ->
      Contains (OpCode.String_ (K:=uapi) o) "Mode" = false) /\
     (Contains (OpCode.String_ (K:=uapi) o) "Atomic" = true <->
      OpCode.Mode (K:=uapi) o = AtomicMode (Decls:=uapi))).
Proof.
  split; [ intros K o1 o2 E; now rewrite E | ]. split.
  - intros K o Hname Hc Hm.
    destruct (String_AtomicMode o Hname Hc Hm) as [rest E].
    rewrite E. apply Contains_append.
  - intros o Hv Ho.
    assert (Hb : 0 <= o < 256).
    { apply (valid_low_byte o Ho) in Hv.
      rewrite Z.shiftr_div_pow2 in Hv by lia. change (2 ^ 8) with 256 in Hv.
      unfold uint32 in Ho. pose proof (Z.div_mod o 256).
      pose proof (Z.mod_pos_bound o 256). lia. }
    pose proof suffix_scan_bytes as Hscan.
    rewrite forallb_forall in Hscan.
    specialize (Hscan o (byte_opcodes_In o Hb)).
    unfold suffix_scan in Hscan. cbv zeta in Hscan.
    apply andb_true_iff in Hscan. destruct Hscan as [Hscan Hat].
    apply andb_true_iff in Hscan. destruct Hscan as [Hscan Hmode].
    apply andb_true_iff in Hscan. destruct Hscan as [Hcls Hsrc].
    apply negb_true_iff in Hcls, Hsrc.
    split; [ exact Hcls | ]. split; [ exact Hsrc | ]. split.
    + intros Ha0 He0. apply Z.eqb_neq in Ha0, He0.
      rewrite Ha0, He0 in Hmode. now apply negb_true_iff in Hmode.
    + apply Bool.eqb_prop in Hat. rewrite Hat. apply Z.eqb_eq.
Qed.

Lemma String_suffixes_witness :
  Contains (OpCode.String_ (K:=uapi) 0xdb) "Atomic" = true /\
  Contains (OpCode.String_ (K:=uapi) 0x61) "Mode" = false.
Proof.
  destruct String_suffixes as (_ & Hat & Hscan).
  split.
  - apply (Hat uapi 0xdb); reflexivity.
  - apply (Hscan 0x61); [ reflexivity | uint32_const | discriminate
                        | discriminate ].
Defined.

(** C8 as stated fails on an atomic store: [0xdb] is the StX
    opcode in atomic mode with size DWord, it has no bit above the low byte,
    and its mnemonic contains [Atomic]. *)
Lemma String_Atomic_counterexample :
  valid 0xdb 0xff = true /\
  Class.isLoadOrStore (OpCode.Class 0xdb) = true /\
  OpCode.Mode (K:=uapi) 0xdb = AtomicMode (Decls:=uapi) /\
  prefix "StXAtomic" (OpCode.String_ (K:=uapi) 0xdb) = true /\
  Contains (OpCode.String_ (K:=uapi) 0xdb) "Atomic" = true.
Proof. repeat split. Qed.

(** * Further properties of the accessors and mutators *)

(** ** More on the bits of the machine operations *)

(** The three facts a bit-level argument starts from, each as an equation
    between booleans at one bit. *)
Lemma valid_bit (v m i : Z) :
  valid v m = true -> 0 <= i ->
  Z.testbit v i && xorb (Z.testbit m i) (i <? 32) = false.
Proof.
  intros Hv Hi. apply valid_iff in Hv.
  apply (f_equal (fun z => Z.testbit z i)) in Hv.
  now rewrite Z.land_spec, testbit_not32, Z.bits_0 in Hv by assumption.
Qed.

Lemma uint32_bit (v i : Z) :
  uint32 v -> 0 <= i -> Z.testbit v i && negb (i <? 32) = false.
Proof.
  intros Hv Hi. destruct (Z.ltb_spec i 32) as [Hlt | Hge].
  - apply andb_false_r.
  - now rewrite (testbit_high 32 v i Hv Hge).
Qed.

Lemma disjoint_bit (m c i : Z) :
  Z.land m c = 0 -> Z.testbit m i && Z.testbit c i = false.
Proof.
  intros Hd. apply (f_equal (fun z => Z.testbit z i)) in Hd.
  now rewrite Z.land_spec, Z.bits_0 in Hd.
Qed.

(** Equality of two bitwise expressions, bit by bit: the facts about the bit
    are in the goal as premises, every bit is a boolean case. *)
Ltac bool_blast :=
  repeat match goal with
         | |- context [Z.testbit ?a ?i] => destruct (Z.testbit a i)
         | |- context [?i <? ?n] => destruct (i <? n)
         end;
  cbn; intros; congruence.

Ltac bitwise i Hi :=
  apply Z.bits_inj'; intros i Hi;
  repeat first [ rewrite Z.lor_spec
               | rewrite Z.land_spec
               | rewrite testbit_not32 by assumption
               | rewrite Z.bits_0 ].

(** Writing a field twice keeps the second value. *)
Lemma replace_replace (op m v1 v2 : Z) :
  uint32 v1 -> valid v1 m = true ->
  Z.lor (Z.land (Z.lor (Z.land op (not32 m)) v1) (not32 m)) v2
  = Z.lor (Z.land op (not32 m)) v2.
Proof.
  intros U1 V1. bitwise i Hi.
  generalize (valid_bit v1 m i V1 Hi) (uint32_bit v1 i U1 Hi).
  bool_blast.
Qed.

(** Writing two fields without a common bit, in either order. *)
Lemma replace_commute (op m1 m2 v1 v2 : Z) :
  uint32 v1 -> uint32 v2 -> Z.land m1 m2 = 0 ->
  valid v1 m1 = true -> valid v2 m2 = true ->
  Z.lor (Z.land (Z.lor (Z.land op (not32 m1)) v1) (not32 m2)) v2
  = Z.lor (Z.land (Z.lor (Z.land op (not32 m2)) v2) (not32 m1)) v1.
Proof.
  intros U1 U2 Hd V1 V2. bitwise i Hi.
  generalize (valid_bit v1 m1 i V1 Hi) (uint32_bit v1 i U1 Hi)
             (valid_bit v2 m2 i V2 Hi) (uint32_bit v2 i U2 Hi)
             (disjoint_bit m1 m2 i Hd).
  bool_blast.
Qed.

(** Writing a field inside a cover keeps an opcode inside the cover. *)
Lemma valid_replace (op m v c : Z) :
  uint32 v -> valid op c = true -> valid m c = true -> valid v m = true ->
  valid (Z.lor (Z.land op (not32 m)) v) c = true.
Proof.
  intros U Vo Vm Vv. apply valid_iff. bitwise i Hi.
  generalize (valid_bit op c i Vo Hi) (valid_bit m c i Vm Hi)
             (valid_bit v m i Vv Hi) (uint32_bit v i U Hi).
  bool_blast.
Qed.

(** A non-zero value written in a field above the low byte leaves a bit
    above the low byte. *)
Lemma replace_above_low_byte (op m v : Z) :
  uint32 v -> v <> 0 -> Z.land m 0xff = 0 -> valid v m = true ->
  valid (Z.lor (Z.land op (not32 m)) v) 0xff = false.
Proof.
  intros U Hv Hd Vv.
  destruct (valid (Z.lor (Z.land op (not32 m)) v) 255) eqn:E;
    [ | reflexivity ].
  elim Hv. apply Z.bits_inj'. intros i Hi. rewrite Z.bits_0.
  generalize (valid_bit _ _ i E Hi) (valid_bit v m i Vv Hi)
             (uint32_bit v i U Hi) (disjoint_bit m 255 i Hd).
  rewrite Z.lor_spec, Z.land_spec, testbit_not32 by assumption.
  bool_blast.
Qed.

(** What a getter reads is covered by its mask, whatever the width of the
    facet type. *)
Lemma valid_field_any (op m w : Z) :
  uint32 op -> valid (toOpCode (wrap w (Z.land op m))) m = true.
Proof.
  intros Hop. destruct (Z.ltb_spec w 0) as [Hneg | Hpos].
  - unfold wrap at 1. rewrite Z.pow_neg_r, Z.mod_0_r by assumption.
    apply valid_iff. bitwise i Hi. unfold toOpCode.
    rewrite testbit_wrap, Z.land_spec by lia.
    generalize (uint32_bit op i Hop Hi). bool_blast.
  - now apply valid_field.
Qed.

Lemma uint32_toOpCode (v : Z) : uint32 (toOpCode v).
Proof. apply wrap_uint32. Qed.

(** ** What a successful setter did

    A setter whose result is not [InvalidOpCode] passed its guards and
    returned the replacement. *)

Section SetterInversion.
Context {K : Decls}.

Lemma SetMode_inv (o v : Z) :
  OpCode.SetMode o v <> InvalidOpCode ->
  Class.isLoadOrStore (OpCode.Class o) = true /\
  valid (toOpCode v) modeMask = true /\
  OpCode.SetMode o v = Z.lor (Z.land o (not32 modeMask)) (toOpCode v).
Proof.
  unfold OpCode.SetMode.
  destruct (Class.isLoadOrStore (OpCode.Class o)); cbn [negb orb];
    [ | intros H; now elim H ].
  destruct (valid (toOpCode v) modeMask); cbn [negb];
    [ tauto | intros H; now elim H ].
Qed.

Lemma SetSize_inv (o v : Z) :
  OpCode.SetSize o v <> InvalidOpCode ->
  Class.isLoadOrStore (OpCode.Class o) = true /\
  valid (toOpCode v) sizeMask = true /\
  OpCode.SetSize o v = Z.lor (Z.land o (not32 sizeMask)) (toOpCode v).
Proof.
  unfold OpCode.SetSize.
  destruct (Class.isLoadOrStore (OpCode.Class o)); cbn [negb orb];
    [ | intros H; now elim H ].
  destruct (valid (toOpCode v) sizeMask); cbn [negb];
    [ tauto | intros H; now elim H ].
Qed.

Lemma SetAtomicOp_inv (o v : Z) :
  OpCode.SetAtomicOp o v <> InvalidOpCode ->
  OpCode.Class o = StXClass /\ OpCode.Mode o = AtomicMode /\
  valid (toOpCode v) atomicMask = true /\
  OpCode.SetAtomicOp o v = Z.lor (Z.land o (not32 atomicMask)) (toOpCode v).
Proof.
  unfold OpCode.SetAtomicOp.
  destruct (Z.eqb_spec (OpCode.Class o) StXClass) as [Ec | Nc];
    cbn [negb orb]; [ | intros H; now elim H ].
  destruct (Z.eqb_spec (OpCode.Mode o) AtomicMode) as [Em | Nm];
    cbn [negb orb]; [ | intros H; now elim H ].
  destruct (valid (toOpCode v) atomicMask); cbn [negb];
    [ tauto | intros H; now elim H ].
Qed.

Lemma SetSource_inv (o v : Z) :
  OpCode.SetSource o v <> InvalidOpCode ->
  Class.isJumpOrALU (OpCode.Class o) = true /\
  valid (toOpCode v) sourceMask = true /\
  OpCode.SetSource o v = Z.lor (Z.land o (not32 sourceMask)) (toOpCode v).
Proof.
  unfold OpCode.SetSource.
  destruct (Class.isJumpOrALU (OpCode.Class o)); cbn [negb orb];
    [ | intros H; now elim H ].
  destruct (valid (toOpCode v) sourceMask); cbn [negb];
    [ tauto | intros H; now elim H ].
Qed.

Lemma SetALUOp_inv (o v : Z) :
  OpCode.SetALUOp o v <> InvalidOpCode ->
  Class.IsALU (OpCode.Class o) = true /\
  valid (toOpCode v) aluMask = true /\
  OpCode.SetALUOp o v = Z.lor (Z.land o (not32 aluMask)) (toOpCode v).
Proof.
  unfold OpCode.SetALUOp.
  destruct (Class.IsALU (OpCode.Class o)); cbn [negb orb];
    [ | intros H; now elim H ].
  destruct (valid (toOpCode v) aluMask); cbn [negb];
    [ tauto | intros H; now elim H ].
Qed.

Lemma SetJumpOp_inv (o v : Z) :
  OpCode.SetJumpOp o v <> InvalidOpCode ->
  Class.IsJump (OpCode.Class o) = true /\
  valid (toOpCode v) jumpMask = true /\
  OpCode.JumpOp (Z.lor (Z.land o (not32 jumpMask)) (toOpCode v))
    <> InvalidJumpOp /\
  OpCode.SetJumpOp o v = Z.lor (Z.land o (not32 jumpMask)) (toOpCode v).
Proof.
  unfold OpCode.SetJumpOp.
  destruct (Class.IsJump (OpCode.Class o)); cbn [negb orb];
    [ | intros H; now elim H ].
  destruct (valid (toOpCode v) jumpMask); cbn [negb];
    [ | intros H; now elim H ].
  cbv zeta.
  destruct (Z.eqb_spec (OpCode.JumpOp
              (Z.lor (Z.land o (not32 jumpMask)) (toOpCode v)))
              InvalidJumpOp) as [E | N];
    [ intros H; now elim H | tauto ].
Qed.

(** The sentinel has class [ALU64Class]: the setters of the load, store and
    jump facets return it unchanged, for every argument. *)
Lemma Set_on_InvalidOpCode (v : Z) :
  OpCode.SetMode InvalidOpCode v = InvalidOpCode /\
  OpCode.SetSize InvalidOpCode v = InvalidOpCode /\
  OpCode.SetAtomicOp InvalidOpCode v = InvalidOpCode /\
  OpCode.SetJumpOp InvalidOpCode v = InvalidOpCode.
Proof. repeat split. Qed.

End SetterInversion.

(** ** The mask check *)

(** X1. [valid] is the test that a value is covered by a mask: for a
    32-bit value it holds exactly when masking the value changes nothing; a
    union is covered exactly when both parts are; being covered is transitive;
    and only zero is covered by the empty mask. *)
Theorem valid_covered :
  (forall v m, uint32 v -> (valid v m = true <-> Z.land v m = v)) /\
  (forall a b m, valid (Z.lor a b) m = valid a m && valid b m) /\
  (forall v m c,
     uint32 v -> valid v m = true -> valid m c = true -> valid v c = true) /\
  (forall v, uint32 v -> (valid v 0 = true <-> v = 0)).
Proof.
  assert (C : forall v m, uint32 v -> (valid v m = true <-> Z.land v m = v)).
  { intros v m U. split.
    - intros V. bitwise i Hi.
      generalize (valid_bit v m i V Hi) (uint32_bit v i U Hi). bool_blast.
    - intros E. apply valid_iff. bitwise i Hi.
      apply (f_equal (fun z => Z.testbit z i)) in E.
      rewrite Z.land_spec in E.
      generalize E (uint32_bit v i U Hi). bool_blast. }
  split; [ exact C | ]. split; [ | split ].
  - intros a b m. unfold valid. rewrite Z.land_lor_distr_l.
    destruct (Z.eqb_spec (Z.land a (not32 m)) 0) as [Ea | Na];
      destruct (Z.eqb_spec (Z.land b (not32 m)) 0) as [Eb | Nb];
      cbn [andb];
      try (apply Z.eqb_eq; apply Z.lor_eq_0_iff; now split);
      apply Z.eqb_neq; intros E; apply Z.lor_eq_0_iff in E; tauto.
  - intros v m c U V M. apply valid_iff. bitwise i Hi.
    generalize (valid_bit v m i V Hi) (valid_bit m c i M Hi)
               (uint32_bit v i U Hi).
    bool_blast.
  - intros v U. rewrite (C v 0 U), Z.land_0_r. split; congruence.
Qed.

Lemma valid_covered_witness :
  valid 0x60 0xe0 = true /\ valid 0x60 0xff = true.
Proof.
  destruct valid_covered as (C & _ & T & _).
  assert (V : valid 0x60 0xe0 = true).
  { apply C; [ uint32_const | reflexivity ]. }
  split; [ exact V | ].
  apply (T 0x60 0xe0 0xff); [ uint32_const | exact V | reflexivity ].
Defined.

(** ** The class families *)

(** X2. For every opcode exactly one of [IsLoad], [IsStore], [IsALU] and
    [IsJump] holds of its class; [isJumpOrALU] is the negation of
    [isLoadOrStore]; and the class is a load or a store exactly when bit 2 of
    the opcode is clear. *)
Theorem Class_families (op : Z) :
  ((Class.IsLoad (OpCode.Class op) = true /\
    Class.IsStore (OpCode.Class op) = false /\
    Class.IsALU (OpCode.Class op) = false /\
    Class.IsJump (OpCode.Class op) = false) \/
   (Class.IsLoad (OpCode.Class op) = false /\
    Class.IsStore (OpCode.Class op) = true /\
    Class.IsALU (OpCode.Class op) = false /\
    Class.IsJump (OpCode.Class op) = false) \/
   (Class.IsLoad (OpCode.Class op) = false /\
    Class.IsStore (OpCode.Class op) = false /\
    Class.IsALU (OpCode.Class op) = true /\
    Class.IsJump (OpCode.Class op) = false) \/
   (Class.IsLoad (OpCode.Class op) = false /\
    Class.IsStore (OpCode.Class op) = false /\
    Class.IsALU (OpCode.Class op) = false /\
    Class.IsJump (OpCode.Class op) = true)) /\
  Class.isJumpOrALU (OpCode.Class op)
    = negb (Class.isLoadOrStore (OpCode.Class op)) /\
  Class.isLoadOrStore (OpCode.Class op) = negb (Z.testbit op 2).
Proof.
  assert (Hb : Z.testbit (OpCode.Class op) 2 = Z.testbit op 2).
  { rewrite Class_land, Z.land_spec. apply andb_true_r. }
  rewrite <- Hb.
  destruct (Class_cases op) as [E | [E | [E | [E | [E | [E | [E | E]]]]]]];
    rewrite E; cbn; tauto.
Qed.

(** ** Reading after writing *)

Lemma field_written (o m w v : Z) :
  uint32 m -> w <= 32 -> 0 <= v < 2 ^ w ->
  valid (toOpCode v) m = true ->
  wrap w (Z.land (Z.lor (Z.land o (not32 m)) (toOpCode v)) m) = v.
Proof.
  intros Um Hw Hv V.
  rewrite replace_this_field by (assumption || apply uint32_toOpCode).
  destruct (toOpCode_small w v Hw Hv) as [E1 E2]. now rewrite E1.
Qed.

Lemma field_kept (o m c v : Z) :
  uint32 c -> Z.land m c = 0 -> valid (toOpCode v) m = true ->
  Z.land (Z.lor (Z.land o (not32 m)) (toOpCode v)) c = Z.land o c.
Proof.
  intros Uc Hd V.
  apply replace_other_field; assumption || apply uint32_toOpCode.
Qed.

Section Layout.
Context {K : Decls}.

(** The layout that the comment of [OpCode] draws: every mask is a 32-bit
    constant with no bit in the class field; the facet types are at most 32
    bits wide; the masks of one class family have no common bit; every
    sentinel has a bit outside its mask. *)
Hypothesis modeMask_uint32 : uint32 modeMask.
Hypothesis sizeMask_uint32 : uint32 sizeMask.
Hypothesis atomicMask_uint32 : uint32 atomicMask.
Hypothesis sourceMask_uint32 : uint32 sourceMask.
Hypothesis aluMask_uint32 : uint32 aluMask.
Hypothesis jumpMask_uint32 : uint32 jumpMask.

Hypothesis modeMask_off_class : Z.land modeMask classMask = 0.
Hypothesis sizeMask_off_class : Z.land sizeMask classMask = 0.
Hypothesis atomicMask_off_class : Z.land atomicMask classMask = 0.
Hypothesis sourceMask_off_class : Z.land sourceMask classMask = 0.
Hypothesis aluMask_off_class : Z.land aluMask classMask = 0.
Hypothesis jumpMask_off_class : Z.land jumpMask classMask = 0.

Hypothesis Mode_bits_le : Mode_bits <= 32.
Hypothesis Size_bits_le : Size_bits <= 32.
Hypothesis AtomicOp_bits_le : AtomicOp_bits <= 32.
Hypothesis Source_bits_le : Source_bits <= 32.
Hypothesis Endianness_bits_le : Endianness_bits <= 32.
Hypothesis ALUOp_bits_le : ALUOp_bits <= 32.
Hypothesis JumpOp_bits_le : JumpOp_bits <= 32.

Hypothesis modeMask_sizeMask : Z.land modeMask sizeMask = 0.
Hypothesis atomicMask_modeMask : Z.land atomicMask modeMask = 0.
Hypothesis atomicMask_sizeMask : Z.land atomicMask sizeMask = 0.
Hypothesis sourceMask_aluMask : Z.land sourceMask aluMask = 0.
Hypothesis sourceMask_jumpMask : Z.land sourceMask jumpMask = 0.

Hypothesis InvalidMode_outside :
  valid (toOpCode InvalidMode) modeMask = false.
Hypothesis InvalidSize_outside :
  valid (toOpCode InvalidSize) sizeMask = false.
Hypothesis InvalidAtomic_outside :
  valid (toOpCode InvalidAtomic) atomicMask = false.
Hypothesis InvalidSource_outside :
  valid (toOpCode InvalidSource) sourceMask = false.
Hypothesis InvalidEndian_outside :
  valid (toOpCode InvalidEndian) endianMask = false.
Hypothesis InvalidALUOp_outside :
  valid (toOpCode InvalidALUOp) aluMask = false.
Hypothesis InvalidJumpOp_outside :
  valid (toOpCode InvalidJumpOp) jumpMask = false.

(** Mode, Size, Source and JumpOp lie in the low byte; the atomic operation
    lies above it; Endianness is read through the bit of Source. *)
Hypothesis modeMask_low : valid modeMask 0xff = true.
Hypothesis sizeMask_low : valid sizeMask 0xff = true.
Hypothesis sourceMask_low : valid sourceMask 0xff = true.
Hypothesis jumpMask_low : valid jumpMask 0xff = true.
Hypothesis atomicMask_high : Z.land atomicMask 0xff = 0.
Hypothesis endianMask_sourceMask : endianMask = sourceMask.

(** *** A getter after a replacement through another mask *)

Lemma Mode_kept (o m v : Z) :
  Z.land m classMask = 0 -> Z.land m modeMask = 0 ->
  valid (toOpCode v) m = true ->
  OpCode.Mode (Z.lor (Z.land o (not32 m)) (toOpCode v)) = OpCode.Mode o.
Proof.
  intros Hc Hd V. unfold OpCode.Mode.
  now rewrite Class_replace, field_kept by assumption.
Qed.

Lemma Size_kept (o m v : Z) :
  Z.land m classMask = 0 -> Z.land m sizeMask = 0 ->
  valid (toOpCode v) m = true ->
  OpCode.Size (Z.lor (Z.land o (not32 m)) (toOpCode v)) = OpCode.Size o.
Proof.
  intros Hc Hd V. unfold OpCode.Size.
  now rewrite Class_replace, field_kept by assumption.
Qed.

Lemma ALUOp_kept (o m v : Z) :
  Z.land m classMask = 0 -> Z.land m aluMask = 0 ->
  valid (toOpCode v) m = true ->
  OpCode.ALUOp (Z.lor (Z.land o (not32 m)) (toOpCode v)) = OpCode.ALUOp o.
Proof.
  intros Hc Hd V. unfold OpCode.ALUOp.
  now rewrite Class_replace, field_kept by assumption.
Qed.

Lemma JumpOp_kept (o m v : Z) :
  Z.land m classMask = 0 -> Z.land m jumpMask = 0 ->
  valid (toOpCode v) m = true ->
  OpCode.JumpOp (Z.lor (Z.land o (not32 m)) (toOpCode v)) = OpCode.JumpOp o.
Proof.
  intros Hc Hd V. unfold OpCode.JumpOp.
  now rewrite Class_replace, field_kept by assumption.
Qed.

Lemma AtomicOp_kept (o m v : Z) :
  Z.land m classMask = 0 -> Z.land m modeMask = 0 ->
  Z.land m atomicMask = 0 -> valid (toOpCode v) m = true ->
  OpCode.AtomicOp (Z.lor (Z.land o (not32 m)) (toOpCode v))
  = OpCode.AtomicOp o.
Proof.
  intros Hc Hm Hd V. unfold OpCode.AtomicOp.
  now rewrite Class_replace, Mode_kept, field_kept by assumption.
Qed.

Lemma Source_kept (o m v : Z) :
  Z.land m classMask = 0 -> Z.land m aluMask = 0 ->
  Z.land m sourceMask = 0 -> valid (toOpCode v) m = true ->
  OpCode.Source (Z.lor (Z.land o (not32 m)) (toOpCode v)) = OpCode.Source o.
Proof.
  intros Hc Ha Hd V. unfold OpCode.Source.
  now rewrite Class_replace, ALUOp_kept, field_kept by assumption.
Qed.

(** X3. A getter reads what a successful setter wrote: for a value [v]
    of the facet type, [Mode(SetMode(o, v)) = v], and likewise for Size,
    AtomicOp, ALUOp and JumpOp; [Source(SetSource(o, v)) = v] unless the
    operation is [Swap]. *)
Theorem get_after_set (o v : Z) :
  (OpCode.SetMode o v <> InvalidOpCode -> 0 <= v < 2 ^ Mode_bits ->
   OpCode.Mode (OpCode.SetMode o v) = v) /\
  (OpCode.SetSize o v <> InvalidOpCode -> 0 <= v < 2 ^ Size_bits ->
   OpCode.Size (OpCode.SetSize o v) = v) /\
  (OpCode.SetAtomicOp o v <> InvalidOpCode -> 0 <= v < 2 ^ AtomicOp_bits ->
   OpCode.AtomicOp (OpCode.SetAtomicOp o v) = v) /\
  (OpCode.SetALUOp o v <> InvalidOpCode -> 0 <= v < 2 ^ ALUOp_bits ->
   OpCode.ALUOp (OpCode.SetALUOp o v) = v) /\
  (OpCode.SetJumpOp o v <> InvalidOpCode -> 0 <= v < 2 ^ JumpOp_bits ->
   OpCode.JumpOp (OpCode.SetJumpOp o v) = v) /\
  (OpCode.SetSource o v <> InvalidOpCode -> 0 <= v < 2 ^ Source_bits ->
   OpCode.ALUOp o <> Swap ->
   OpCode.Source (OpCode.SetSource o v) = v).
Proof.
  split; [ | split; [ | split; [ | split; [ | split ] ] ] ].
  - intros H Hv. destruct (SetMode_inv o v H) as (Hc & V & E).
    rewrite E. unfold OpCode.Mode.
    rewrite Class_replace, Hc by assumption. cbn [negb].
    now apply field_written.
  - intros H Hv. destruct (SetSize_inv o v H) as (Hc & V & E).
    rewrite E. unfold OpCode.Size.
    rewrite Class_replace, Hc by assumption. cbn [negb].
    now apply field_written.
  - intros H Hv. destruct (SetAtomicOp_inv o v H) as (Hc & Hm & V & E).
    rewrite E. unfold OpCode.AtomicOp.
    rewrite Class_replace, Mode_kept, Hc, Hm, !Z.eqb_refl by assumption.
    cbn [negb orb]. now apply field_written.
  - intros H Hv. destruct (SetALUOp_inv o v H) as (Hc & V & E).
    rewrite E. unfold OpCode.ALUOp.
    rewrite Class_replace, Hc by assumption. cbn [negb].
    now apply field_written.
  - intros H Hv. destruct (SetJumpOp_inv o v H) as (Hc & V & N & E).
    rewrite E, (JumpOp_field _ N).
    now apply field_written.
  - intros H Hv Hs. destruct (SetSource_inv o v H) as (Hc & V & E).
    rewrite E. unfold OpCode.Source.
    rewrite Class_replace, ALUOp_kept, Hc by assumption.
    apply Z.eqb_neq in Hs. rewrite Hs. cbn [negb orb].
    now apply field_written.
Qed.

(** X4. A successful setter leaves the other facets of the class as they
    were: [SetMode] keeps Size and [SetSize] keeps Mode; both keep AtomicOp
    out of what they write, so [SetSize] keeps AtomicOp; [SetAtomicOp] keeps
    Mode and Size; [SetSource] keeps ALUOp and JumpOp; [SetJumpOp] keeps
    Source. *)
Theorem set_keeps_other_facets (o v : Z) :
  (OpCode.SetMode o v <> InvalidOpCode ->
   OpCode.Size (OpCode.SetMode o v) = OpCode.Size o) /\
  (OpCode.SetSize o v <> InvalidOpCode ->
   OpCode.Mode (OpCode.SetSize o v) = OpCode.Mode o /\
   OpCode.AtomicOp (OpCode.SetSize o v) = OpCode.AtomicOp o) /\
  (OpCode.SetAtomicOp o v <> InvalidOpCode ->
   OpCode.Mode (OpCode.SetAtomicOp o v) = OpCode.Mode o /\
   OpCode.Size (OpCode.SetAtomicOp o v) = OpCode.Size o) /\
  (OpCode.SetSource o v <> InvalidOpCode ->
   OpCode.ALUOp (OpCode.SetSource o v) = OpCode.ALUOp o /\
   OpCode.JumpOp (OpCode.SetSource o v) = OpCode.JumpOp o) /\
  (OpCode.SetJumpOp o v <> InvalidOpCode ->
   OpCode.Source (OpCode.SetJumpOp o v) = OpCode.Source o).
Proof.
  assert (S1 : Z.land sizeMask modeMask = 0)
    by now rewrite Z.land_comm.
  assert (S2 : Z.land sizeMask atomicMask = 0)
    by now rewrite Z.land_comm.
  assert (S3 : Z.land jumpMask sourceMask = 0)
    by now rewrite Z.land_comm.
  split; [ | split; [ | split; [ | split ] ] ].
  - intros H. destruct (SetMode_inv o v H) as (Hc & V & E).
    rewrite E. now apply Size_kept.
  - intros H. destruct (SetSize_inv o v H) as (Hc & V & E).
    rewrite E. split; [ now apply Mode_kept | now apply AtomicOp_kept ].
  - intros H. destruct (SetAtomicOp_inv o v H) as (Hc & Hm & V & E).
    rewrite E. split; [ now apply Mode_kept | now apply Size_kept ].
  - intros H. destruct (SetSource_inv o v H) as (Hc & V & E).
    rewrite E. split; [ now apply ALUOp_kept | now apply JumpOp_kept ].
  - intros H. destruct (SetJumpOp_inv o v H) as (Hc & V & N & E).
    rewrite E. unfold OpCode.Source, OpCode.ALUOp.
    rewrite !Class_replace, (IsJump_not_IsALU _ Hc) by assumption.
    cbn [negb]. now rewrite (field_kept o jumpMask sourceMask v).
Qed.

(** *** Composing setters *)

(** X5. The last write wins: after a successful setter, setting the same
    facet again gives what the second setter gives on the original opcode,
    also when the second one fails. *)
Theorem set_twice (o v1 v2 : Z) :
  (OpCode.SetMode o v1 <> InvalidOpCode ->
   OpCode.SetMode (OpCode.SetMode o v1) v2 = OpCode.SetMode o v2) /\
  (OpCode.SetSize o v1 <> InvalidOpCode ->
   OpCode.SetSize (OpCode.SetSize o v1) v2 = OpCode.SetSize o v2) /\
  (OpCode.SetAtomicOp o v1 <> InvalidOpCode ->
   OpCode.SetAtomicOp (OpCode.SetAtomicOp o v1) v2
   = OpCode.SetAtomicOp o v2) /\
  (OpCode.SetSource o v1 <> InvalidOpCode ->
   OpCode.SetSource (OpCode.SetSource o v1) v2 = OpCode.SetSource o v2) /\
  (OpCode.SetALUOp o v1 <> InvalidOpCode ->
   OpCode.SetALUOp (OpCode.SetALUOp o v1) v2 = OpCode.SetALUOp o v2) /\
  (OpCode.SetJumpOp o v1 <> InvalidOpCode ->
   OpCode.SetJumpOp (OpCode.SetJumpOp o v1) v2 = OpCode.SetJumpOp o v2).
Proof.
  pose proof (uint32_toOpCode v1) as U1.
  split; [ | split; [ | split; [ | split; [ | split ] ] ] ].
  - intros H. destruct (SetMode_inv o v1 H) as (Hc & V & E).
    rewrite E. unfold OpCode.SetMode.
    now rewrite Class_replace, replace_replace by assumption.
  - intros H. destruct (SetSize_inv o v1 H) as (Hc & V & E).
    rewrite E. unfold OpCode.SetSize.
    now rewrite Class_replace, replace_replace by assumption.
  - intros H. destruct (SetAtomicOp_inv o v1 H) as (Hc & Hm & V & E).
    rewrite E. unfold OpCode.SetAtomicOp.
    now rewrite Class_replace, Mode_kept, replace_replace by assumption.
  - intros H. destruct (SetSource_inv o v1 H) as (Hc & V & E).
    rewrite E. unfold OpCode.SetSource.
    now rewrite Class_replace, replace_replace by assumption.
  - intros H. destruct (SetALUOp_inv o v1 H) as (Hc & V & E).
    rewrite E. unfold OpCode.SetALUOp.
    now rewrite Class_replace, replace_replace by assumption.
  - intros H. destruct (SetJumpOp_inv o v1 H) as (Hc & V & N & E).
    rewrite E. unfold OpCode.SetJumpOp.
    now rewrite Class_replace, replace_replace by assumption.
Qed.

(** X6. Mode and Size can be set in either order: the two chains give
    the same opcode, and both give [InvalidOpCode] when either setter
    fails. *)
Theorem SetMode_SetSize_commute (o m s : Z) :
  OpCode.SetSize (OpCode.SetMode o m) s
  = OpCode.SetMode (OpCode.SetSize o s) m.
Proof.
  destruct (Set_on_InvalidOpCode s) as (_ & Is & _).
  destruct (Set_on_InvalidOpCode m) as (Im & _).
  destruct (Class.isLoadOrStore (OpCode.Class o)) eqn:Hc.
  - destruct (valid (toOpCode m) modeMask) eqn:Vm;
      destruct (valid (toOpCode s) sizeMask) eqn:Vs.
    + unfold OpCode.SetMode at 1. unfold OpCode.SetSize at 2.
      rewrite Hc, Vm, Vs. cbn [negb orb].
      unfold OpCode.SetMode, OpCode.SetSize.
      rewrite (Class_replace o modeMask m), (Class_replace o sizeMask s)
        by assumption.
      rewrite Hc, Vm, Vs. cbn [negb orb].
      apply replace_commute;
        first [ apply uint32_toOpCode | assumption ].
    + unfold OpCode.SetSize. rewrite Vs. cbn [negb].
      rewrite !orb_true_r. now rewrite Im.
    + unfold OpCode.SetMode. rewrite Vm. cbn [negb].
      rewrite !orb_true_r. now rewrite Is.
    + unfold OpCode.SetSize. rewrite Vs. cbn [negb].
      rewrite !orb_true_r. now rewrite Im.
  - unfold OpCode.SetMode at 1. unfold OpCode.SetSize at 2.
    rewrite Hc. cbn [negb orb]. now rewrite Is, Im.
Qed.

(** X7. The chain [SetMode] then [SetSize] yields an opcode other than
    [InvalidOpCode] exactly when the class is a load or a store and both
    values are covered by their masks: a failure of the first setter is not
    lost in the second. *)
Theorem SetMode_SetSize_succeeds (o m s : Z) :
  OpCode.SetSize (OpCode.SetMode o m) s <> InvalidOpCode <->
  Class.isLoadOrStore (OpCode.Class o) = true /\
  valid (toOpCode m) modeMask = true /\
  valid (toOpCode s) sizeMask = true.
Proof.
  split.
  - intros H. destruct (SetSize_inv _ s H) as (Hc & Vs & _).
    destruct (Z.eq_dec (OpCode.SetMode o m) InvalidOpCode) as [E | N].
    + rewrite E in Hc. discriminate.
    + destruct (SetMode_inv o m N) as (Hc' & Vm & _). tauto.
  - intros (Hc & Vm & Vs) E.
    apply (f_equal OpCode.Class) in E. revert E.
    unfold OpCode.SetMode. rewrite Hc, Vm. cbn [negb orb].
    unfold OpCode.SetSize.
    rewrite (Class_replace o modeMask m), Hc, Vs by assumption.
    cbn [negb orb].
    rewrite (Class_replace _ sizeMask s), (Class_replace o modeMask m)
      by assumption.
    intros E. rewrite E in Hc. discriminate.
Qed.

(** *** Sentinels *)

Lemma field_not_sentinel (o m w s : Z) :
  uint32 o -> valid (toOpCode s) m = false -> wrap w (Z.land o m) <> s.
Proof.
  intros Ho Hs E. rewrite <- E, valid_field_any in Hs by assumption.
  discriminate.
Qed.

(** X8. A getter returns its sentinel only when the facet cannot be
    read: [Mode] and [Size] exactly outside load and store, [ALUOp] exactly
    outside ALU, [JumpOp] exactly outside jump or for [Exit] and [Call] on
    [Jump32Class], [Source] exactly outside jump and ALU or on [Swap],
    [AtomicOp] exactly outside [StXClass] in [AtomicMode], [Endianness]
    exactly when the operation is not [Swap]. *)
Theorem sentinel_iff (o : Z) :
  uint32 o ->
  (OpCode.Mode o = InvalidMode <->
   Class.isLoadOrStore (OpCode.Class o) = false) /\
  (OpCode.Size o = InvalidSize <->
   Class.isLoadOrStore (OpCode.Class o) = false) /\
  (OpCode.ALUOp o = InvalidALUOp <-> Class.IsALU (OpCode.Class o) = false) /\
  (OpCode.JumpOp o = InvalidJumpOp <->
   Class.IsJump (OpCode.Class o) = false \/
   (OpCode.Class o = Jump32Class /\
    (OpCode.jumpField o = Exit \/ OpCode.jumpField o = Call))) /\
  (OpCode.Source o = InvalidSource <->
   Class.isJumpOrALU (OpCode.Class o) = false \/ OpCode.ALUOp o = Swap) /\
  (OpCode.AtomicOp o = InvalidAtomic <->
   ~ (OpCode.Class o = StXClass /\ OpCode.Mode o = AtomicMode)) /\
  (OpCode.Endianness o = InvalidEndian <-> OpCode.ALUOp o <> Swap).
Proof.
  intros Ho.
  split; [ | split; [ | split; [ | split; [ | split; [ | split ] ] ] ] ].
  - unfold OpCode.Mode.
    destruct (Class.isLoadOrStore (OpCode.Class o)); cbn [negb];
      [ | tauto ].
    split; [ intros E | discriminate ].
    now apply field_not_sentinel in E.
  - unfold OpCode.Size.
    destruct (Class.isLoadOrStore (OpCode.Class o)); cbn [negb];
      [ | tauto ].
    split; [ intros E | discriminate ].
    now apply field_not_sentinel in E.
  - unfold OpCode.ALUOp.
    destruct (Class.IsALU (OpCode.Class o)); cbn [negb]; [ | tauto ].
    split; [ intros E | discriminate ].
    now apply field_not_sentinel in E.
  - unfold OpCode.JumpOp. fold (OpCode.jumpField o).
    destruct (Class.IsJump (OpCode.Class o)); cbn [negb]; [ | tauto ].
    destruct (Z.eqb_spec (OpCode.Class o) Jump32Class) as [Ec | Nc];
      destruct (Z.eqb_spec (OpCode.jumpField o) Exit) as [Ee | Ne];
      destruct (Z.eqb_spec (OpCode.jumpField o) Call) as [Ea | Na];
      cbn [andb orb]; try tauto;
      (split;
       [ intros E; now apply field_not_sentinel in E
       | intros [D | (D1 & [D2 | D2])]; congruence ]).
  - unfold OpCode.Source.
    destruct (Class.isJumpOrALU (OpCode.Class o)); cbn [negb orb];
      [ | tauto ].
    destruct (Z.eqb_spec (OpCode.ALUOp o) Swap) as [Es | Ns]; [ tauto | ].
    split; [ intros E | intros [D | D]; congruence ].
    now apply field_not_sentinel in E.
  - unfold OpCode.AtomicOp.
    destruct (Z.eqb_spec (OpCode.Class o) StXClass) as [Ec | Nc];
      cbn [negb orb]; [ | tauto ].
    destruct (Z.eqb_spec (OpCode.Mode o) AtomicMode) as [Em | Nm];
      cbn [negb orb]; [ | tauto ].
    split; [ intros E | tauto ].
    now apply field_not_sentinel in E.
  - unfold OpCode.Endianness.
    destruct (Z.eqb_spec (OpCode.ALUOp o) Swap) as [Es | Ns];
      cbn [negb]; [ | tauto ].
    split; [ intros E | tauto ].
    now apply field_not_sentinel in E.
Qed.

(** *** Setters and the raw projection *)

(** X9. On an opcode without a bit above the low byte, a successful
    [SetMode], [SetSize], [SetSource] or [SetJumpOp] gives an opcode without a
    bit above the low byte: [bpfOpCode] succeeds on the result. *)
Theorem set_keeps_low_byte (o v : Z) :
  valid o 0xff = true ->
  (OpCode.SetMode o v <> InvalidOpCode ->
   valid (OpCode.SetMode o v) 0xff = true /\
   exists b, OpCode.bpfOpCode (OpCode.SetMode o v) = inl b) /\
  (OpCode.SetSize o v <> InvalidOpCode ->
   valid (OpCode.SetSize o v) 0xff = true /\
   exists b, OpCode.bpfOpCode (OpCode.SetSize o v) = inl b) /\
  (OpCode.SetSource o v <> InvalidOpCode ->
   valid (OpCode.SetSource o v) 0xff = true /\
   exists b, OpCode.bpfOpCode (OpCode.SetSource o v) = inl b) /\
  (OpCode.SetJumpOp o v <> InvalidOpCode ->
   valid (OpCode.SetJumpOp o v) 0xff = true /\
   exists b, OpCode.bpfOpCode (OpCode.SetJumpOp o v) = inl b).
Proof.
  intros Vo.
  assert (B : forall r, valid r 0xff = true ->
              valid r 0xff = true /\ exists b, OpCode.bpfOpCode r = inl b).
  { intros r Vr. split; [ exact Vr | ].
    unfold OpCode.bpfOpCode. rewrite Vr. eexists. reflexivity. }
  pose proof (uint32_toOpCode v) as U.
  split; [ | split; [ | split ] ].
  - intros H. destruct (SetMode_inv o v H) as (_ & V & E).
    rewrite E. now apply B, valid_replace.
  - intros H. destruct (SetSize_inv o v H) as (_ & V & E).
    rewrite E. now apply B, valid_replace.
  - intros H. destruct (SetSource_inv o v H) as (_ & V & E).
    rewrite E. now apply B, valid_replace.
  - intros H. destruct (SetJumpOp_inv o v H) as (_ & V & _ & E).
    rewrite E. now apply B, valid_replace.
Qed.

(** X10. [bpfOpCode] rejects every result of [SetAtomicOp] with a
    non-zero atomic operation: the operation is kept above the low byte, or
    the setter failed and returned [InvalidOpCode]. *)
Theorem atomic_opcode_has_no_byte (o a : Z) :
  toOpCode a <> 0 ->
  OpCode.bpfOpCode (OpCode.SetAtomicOp o a)
  = inr (Errorf_invalid_opcode (OpCode.SetAtomicOp o a)).
Proof.
  intros Ha.
  destruct (Z.eq_dec (OpCode.SetAtomicOp o a) InvalidOpCode) as [E | N].
  - rewrite E. reflexivity.
  - destruct (SetAtomicOp_inv o a N) as (_ & _ & V & E).
    rewrite E. unfold OpCode.bpfOpCode.
    rewrite replace_above_low_byte;
      first [ reflexivity | assumption | apply uint32_toOpCode ].
Qed.

(** *** Jump operations on JumpClass *)

(** X11. On an opcode of class [JumpClass], [SetJumpOp] accepts every
    value of the facet type that the mask covers, [Exit] and [Call] too: it
    returns the opcode with the value in its jump field, which is not
    [InvalidOpCode], and [JumpOp] reads the value back. *)
Theorem JumpClass_accepts (o j : Z) :
  OpCode.Class o = JumpClass ->
  0 <= j < 2 ^ JumpOp_bits -> valid (toOpCode j) jumpMask = true ->
  OpCode.SetJumpOp o j = Z.lor (Z.land o (not32 jumpMask)) (toOpCode j) /\
  OpCode.SetJumpOp o j <> InvalidOpCode /\
  OpCode.JumpOp (OpCode.SetJumpOp o j) = j.
Proof.
  intros Hc Hj V.
  assert (Hr : OpCode.JumpOp (Z.lor (Z.land o (not32 jumpMask)) (toOpCode j))
               = j).
  { unfold OpCode.JumpOp. rewrite Class_replace, Hc by assumption.
    cbn [Class.IsJump JumpClass Jump32Class Z.eqb Pos.eqb negb orb andb].
    now apply field_written. }
  assert (Hn : j <> InvalidJumpOp).
  { intros E. rewrite E, InvalidJumpOp_outside in V. discriminate. }
  assert (E : OpCode.SetJumpOp o j
              = Z.lor (Z.land o (not32 jumpMask)) (toOpCode j)).
  { unfold OpCode.SetJumpOp. rewrite Hc, V. cbn [Class.IsJump negb orb].
    cbv zeta. rewrite Hr. apply Z.eqb_neq in Hn. now rewrite Hn. }
  split; [ exact E | ]. split; [ | now rewrite E ].
  rewrite E. intros F. apply (f_equal OpCode.Class) in F.
  rewrite Class_replace, Hc in F by assumption. discriminate.
Qed.

(** *** Source on a byte swap *)

(** X12. On a [Swap] opcode [SetSource] still writes bit 3, but the bit is
    the byte order there: after a successful [SetSource(o, s)], [Source]
    still reads [InvalidSource] and [Endianness] reads [s]. *)
Theorem Swap_SetSource_sets_Endianness (o s : Z) :
  OpCode.ALUOp o = Swap ->
  OpCode.SetSource o s <> InvalidOpCode ->
  0 <= s < 2 ^ Endianness_bits ->
  OpCode.Source (OpCode.SetSource o s) = InvalidSource /\
  OpCode.Endianness (OpCode.SetSource o s) = s.
Proof.
  intros Hs H Ht. destruct (SetSource_inv o s H) as (Hc & V & E).
  rewrite E. unfold OpCode.Source, OpCode.Endianness.
  rewrite ALUOp_kept, Hs, Z.eqb_refl by assumption.
  rewrite orb_true_r. cbn [negb].
  split; [ reflexivity | ].
  rewrite endianMask_sourceMask. now apply field_written.
Qed.

End Layout.

(** *** The layout holds of the table [uapi] *)

(** Closed side conditions on opcodes are decided by evaluation, and the
    premises of a theorem on the layout are discharged one by one. *)
Ltac uapi_eval := first [ uapi_side | vm_compute; uapi_side ].

Ltac uapi_layout R :=
  repeat match type of R with
         | ?A -> _ =>
             let a := fresh "a" in
             assert (a : A) by uapi_side; specialize (R a); clear a
         end.

Lemma get_after_set_witness :
  OpCode.Mode (K:=uapi) (OpCode.SetMode (K:=uapi) 0x61 0x80) = 0x80 /\
  OpCode.JumpOp (K:=uapi) (OpCode.SetJumpOp (K:=uapi) 0x1d 0xa0) = 0xa0 /\
  OpCode.Source (K:=uapi) (OpCode.SetSource (K:=uapi) 0x04 0x08) = 0x08 /\
  OpCode.AtomicOp (K:=uapi) (OpCode.SetAtomicOp (K:=uapi) 0xdb 0xf100)
    = 0xf100.
Proof.
  pose proof (get_after_set (K:=uapi)) as R. uapi_layout R.
  destruct (R 0x61 0x80) as (Hm & _).
  destruct (R 0x1d 0xa0) as (_ & _ & _ & _ & Hj & _).
  destruct (R 0x04 0x08) as (_ & _ & _ & _ & _ & Hs).
  destruct (R 0xdb 0xf100) as (_ & _ & Ha & _).
  split; [ apply Hm; uapi_eval | ].
  split; [ apply Hj; uapi_eval | ].
  split; [ apply Hs; uapi_eval | apply Ha; uapi_eval ].
Defined.

Lemma set_keeps_other_facets_witness :
  OpCode.Size (K:=uapi) (OpCode.SetMode (K:=uapi) 0x79 0x80) = 0x18 /\
  OpCode.JumpOp (K:=uapi) (OpCode.SetSource (K:=uapi) 0x15 0x08) = 0x10 /\
  OpCode.Source (K:=uapi) (OpCode.SetJumpOp (K:=uapi) 0x1d 0xa0) = 0x08.
Proof.
  pose proof (set_keeps_other_facets (K:=uapi)) as R. uapi_layout R.
  destruct (R 0x79 0x80) as (Hm & _).
  destruct (R 0x15 0x08) as (_ & _ & _ & Hs & _).
  destruct (R 0x1d 0xa0) as (_ & _ & _ & _ & Hj).
  split; [ rewrite Hm; uapi_eval | ].
  split; [ | rewrite Hj; uapi_eval ].
  destruct Hs as (_ & Hs); [ uapi_eval | ]. rewrite Hs. reflexivity.
Defined.

Lemma set_twice_witness :
  OpCode.SetMode (K:=uapi) (OpCode.SetMode (K:=uapi) 0x61 0x80) 0x40
    = OpCode.SetMode (K:=uapi) 0x61 0x40 /\
  OpCode.SetJumpOp (K:=uapi) (OpCode.SetJumpOp (K:=uapi) 0x16 0xa0) 0x90
    = OpCode.SetJumpOp (K:=uapi) 0x16 0x90.
Proof.
  pose proof (set_twice (K:=uapi)) as R. uapi_layout R.
  destruct (R 0x61 0x80 0x40) as (Hm & _).
  destruct (R 0x16 0xa0 0x90) as (_ & _ & _ & _ & _ & Hj).
  split; [ apply Hm | apply Hj ]; uapi_eval.
Defined.

Lemma SetMode_SetSize_commute_witness :
  OpCode.SetSize (K:=uapi) (OpCode.SetMode (K:=uapi) 0x00 0x60) 0x18
  = OpCode.SetMode (K:=uapi) (OpCode.SetSize (K:=uapi) 0x00 0x18) 0x60.
Proof.
  apply (SetMode_SetSize_commute (K:=uapi)); uapi_side.
Defined.

Lemma SetMode_SetSize_succeeds_witness :
  OpCode.SetSize (K:=uapi) (OpCode.SetMode (K:=uapi) 0x00 0x60) 0x18
    <> InvalidOpCode /\
  ~ (OpCode.SetSize (K:=uapi) (OpCode.SetMode (K:=uapi) 0x00 0x61) 0x18
     <> InvalidOpCode).
Proof.
  pose proof (SetMode_SetSize_succeeds (K:=uapi)) as R. uapi_layout R.
  split.
  - apply (R 0x00 0x60 0x18). repeat split.
  - intros H. apply (R 0x00 0x61 0x18) in H.
    destruct H as (_ & Vm & _). discriminate.
Defined.

Lemma sentinel_iff_witness :
  Class.isLoadOrStore (OpCode.Class 0x07) = false /\
  OpCode.Class 0x96 = Jump32Class /\
  OpCode.ALUOp (K:=uapi) 0xd4 = 0xd0.
Proof.
  pose proof (sentinel_iff (K:=uapi)) as R. uapi_layout R.
  destruct (R 0x07 ltac:(uint32_const)) as (Hm & _).
  destruct (R 0x96 ltac:(uint32_const)) as (_ & _ & _ & Hj & _).
  destruct (R 0xd4 ltac:(uint32_const)) as (_ & _ & _ & _ & _ & _ & He).
  split; [ apply Hm; reflexivity | ].
  split.
  - destruct (proj1 Hj eq_refl) as [D | (D & _)];
      [ discriminate | exact D ].
  - destruct (Z.eq_dec (OpCode.ALUOp (K:=uapi) 0xd4) 0xd0) as [E | N];
      [ exact E | ].
    apply He in N. discriminate.
Defined.

Lemma set_keeps_low_byte_witness :
  valid (OpCode.SetMode (K:=uapi) 0x61 0x80) 0xff = true /\
  exists b, OpCode.bpfOpCode (OpCode.SetMode (K:=uapi) 0x61 0x80) = inl b.
Proof.
  pose proof (set_keeps_low_byte (K:=uapi)) as R. uapi_layout R.
  destruct (R 0x61 0x80 eq_refl) as (Hm & _).
  apply Hm. discriminate.
Defined.

Lemma atomic_opcode_has_no_byte_witness :
  OpCode.bpfOpCode (OpCode.SetAtomicOp (K:=uapi) 0xdb 0xf100)
  = inr (Errorf_invalid_opcode (OpCode.SetAtomicOp (K:=uapi) 0xdb 0xf100)).
Proof.
  apply (atomic_opcode_has_no_byte (K:=uapi)); uapi_eval.
Defined.

Lemma JumpClass_accepts_witness :
  OpCode.SetJumpOp (K:=uapi) 0x15 0x90 <> InvalidOpCode /\
  OpCode.JumpOp (K:=uapi) (OpCode.SetJumpOp (K:=uapi) 0x15 0x90) = 0x90.
Proof.
  pose proof (JumpClass_accepts (K:=uapi)) as R. uapi_layout R.
  destruct (R 0x15 0x90 eq_refl) as (_ & Hn & Hr);
    [ uapi_eval | uapi_eval | ].
  exact (conj Hn Hr).
Defined.

Lemma Swap_SetSource_sets_Endianness_witness :
  OpCode.Source (K:=uapi) (OpCode.SetSource (K:=uapi) 0xd4 0x08) = 0xff /\
  OpCode.Endianness (K:=uapi) (OpCode.SetSource (K:=uapi) 0xd4 0x08) = 0x08.
Proof.
  apply (Swap_SetSource_sets_Endianness (K:=uapi)); uapi_eval.
Defined.

(** ** The sentinel as the only sign of failure *)

Section Failure.
Context {K : Decls}.

Hypothesis modeMask_off_class : Z.land modeMask classMask = 0.
Hypothesis sizeMask_off_class : Z.land sizeMask classMask = 0.
Hypothesis atomicMask_off_class : Z.land atomicMask classMask = 0.
Hypothesis jumpMask_off_class : Z.land jumpMask classMask = 0.
Hypothesis sourceMask_low : valid sourceMask 0xff = true.

(** A replacement has the class of the opcode, and [InvalidOpCode] has class
    [ALU64Class]. *)
Lemma replace_not_InvalidOpCode (o m v : Z) :
  Z.land m classMask = 0 -> valid (toOpCode v) m = true ->
  OpCode.Class o <> ALU64Class ->
  Z.lor (Z.land o (not32 m)) (toOpCode v) <> InvalidOpCode.
Proof.
  intros Hd V Hc E. apply (f_equal OpCode.Class) in E.
  rewrite Class_replace in E by assumption. now apply Hc.
Qed.

(** X13. A setter of a load, store or jump facet returns [InvalidOpCode]
    exactly when one of its guards fails: the class, the mask check, and for
    [SetJumpOp] the check that the new jump operation is legal.  The same
    holds of [SetSource] on an opcode without a bit above the low byte.  A
    successful setter never returns the sentinel by accident. *)
Theorem set_fails_iff (o v : Z) :
  (OpCode.SetMode o v = InvalidOpCode <->
   Class.isLoadOrStore (OpCode.Class o) = false \/
   valid (toOpCode v) modeMask = false) /\
  (OpCode.SetSize o v = InvalidOpCode <->
   Class.isLoadOrStore (OpCode.Class o) = false \/
   valid (toOpCode v) sizeMask = false) /\
  (OpCode.SetAtomicOp o v = InvalidOpCode <->
   OpCode.Class o <> StXClass \/ OpCode.Mode o <> AtomicMode \/
   valid (toOpCode v) atomicMask = false) /\
  (OpCode.SetJumpOp o v = InvalidOpCode <->
   Class.IsJump (OpCode.Class o) = false \/
   valid (toOpCode v) jumpMask = false \/
   OpCode.JumpOp (Z.lor (Z.land o (not32 jumpMask)) (toOpCode v))
   = InvalidJumpOp) /\
  (valid o 0xff = true ->
   (OpCode.SetSource o v = InvalidOpCode <->
    Class.isJumpOrALU (OpCode.Class o) = false \/
    valid (toOpCode v) sourceMask = false)).
Proof.
  split; [ | split; [ | split; [ | split ] ] ].
  - unfold OpCode.SetMode.
    destruct (Class.isLoadOrStore (OpCode.Class o)) eqn:Hc;
      cbn [negb orb]; [ | tauto ].
    destruct (valid (toOpCode v) modeMask) eqn:V; cbn [negb]; [ | tauto ].
    split; [ intros E | intros [D | D]; discriminate ].
    apply replace_not_InvalidOpCode in E; try assumption; try tauto.
    intros F. rewrite F in Hc. discriminate.
  - unfold OpCode.SetSize.
    destruct (Class.isLoadOrStore (OpCode.Class o)) eqn:Hc;
      cbn [negb orb]; [ | tauto ].
    destruct (valid (toOpCode v) sizeMask) eqn:V; cbn [negb]; [ | tauto ].
    split; [ intros E | intros [D | D]; discriminate ].
    apply replace_not_InvalidOpCode in E; try assumption; try tauto.
    intros F. rewrite F in Hc. discriminate.
  - unfold OpCode.SetAtomicOp.
    destruct (Z.eqb_spec (OpCode.Class o) StXClass) as [Hc | Hc];
      cbn [negb orb]; [ | tauto ].
    destruct (Z.eqb_spec (OpCode.Mode o) AtomicMode) as [Hm | Hm];
      cbn [negb orb]; [ | tauto ].
    destruct (valid (toOpCode v) atomicMask) eqn:V; cbn [negb];
      [ | tauto ].
    split; [ intros E | intros [D | [D | D]]; congruence ].
    apply replace_not_InvalidOpCode in E; try assumption; try tauto.
    rewrite Hc. discriminate.
  - unfold OpCode.SetJumpOp.
    destruct (Class.IsJump (OpCode.Class o)) eqn:Hc;
      cbn [negb orb]; [ | tauto ].
    destruct (valid (toOpCode v) jumpMask) eqn:V; cbn [negb]; [ | tauto ].
    cbv zeta.
    destruct (Z.eqb_spec (OpCode.JumpOp
                (Z.lor (Z.land o (not32 jumpMask)) (toOpCode v)))
                InvalidJumpOp) as [Ej | Nj]; [ tauto | ].
    split; [ intros E | intros [D | [D | D]]; congruence ].
    apply replace_not_InvalidOpCode in E; try assumption; try tauto.
    intros F. rewrite F in Hc. discriminate.
  - intros Vo. unfold OpCode.SetSource.
    destruct (Class.isJumpOrALU (OpCode.Class o)) eqn:Hc;
      cbn [negb orb]; [ | tauto ].
    destruct (valid (toOpCode v) sourceMask) eqn:V; cbn [negb];
      [ | tauto ].
    split; [ intros E | intros [D | D]; discriminate ].
    assert (Vr : valid (Z.lor (Z.land o (not32 sourceMask)) (toOpCode v))
                   0xff = true).
    { apply valid_replace; assumption || apply uint32_toOpCode. }
    rewrite E in Vr. discriminate.
Qed.

End Failure.

Lemma set_fails_iff_witness :
  OpCode.SetSource (K:=uapi) 0x61 0x08 = InvalidOpCode /\
  OpCode.SetMode (K:=uapi) 0x61 0x61 = InvalidOpCode.
Proof.
  pose proof (set_fails_iff (K:=uapi)) as R. uapi_layout R.
  destruct (R 0x61 0x08) as (_ & _ & _ & _ & Hs).
  destruct (R 0x61 0x61) as (Hm & _).
  split.
  - apply (Hs eq_refl). left. reflexivity.
  - apply Hm. right. reflexivity.
Defined.

(** ** The raw projection and the conversion from a byte *)

(** X14. [bpfOpCode] and the conversion of a byte to an [OpCode] are
    inverse to each other: the projection of [OpCode(b)] is [b] for every
    byte [b], and when the projection of an opcode succeeds with [b], the
    opcode is [OpCode(b)]; so two opcodes with the same byte are equal. *)
Theorem bpfOpCode_byte_round_trip :
  (forall b, 0 <= b < 256 -> OpCode.bpfOpCode (toOpCode b) = inl b) /\
  (forall o b,
     uint32 o -> OpCode.bpfOpCode o = inl b ->
     0 <= b < 256 /\ o = toOpCode b) /\
  (forall o1 o2 b,
     uint32 o1 -> uint32 o2 ->
     OpCode.bpfOpCode o1 = inl b -> OpCode.bpfOpCode o2 = inl b -> o1 = o2).
Proof.
  assert (Small : forall o, uint32 o -> valid o 0xff = true -> 0 <= o < 256).
  { intros o Ho V. apply (valid_low_byte o Ho) in V.
    rewrite Z.shiftr_div_pow2 in V by lia. change (2 ^ 8) with 256 in V.
    unfold uint32 in Ho. pose proof (Z.div_mod o 256).
    pose proof (Z.mod_pos_bound o 256). lia. }
  assert (Back : forall o b, uint32 o -> OpCode.bpfOpCode o = inl b ->
                 0 <= b < 256 /\ o = toOpCode b).
  { intros o b Ho. unfold OpCode.bpfOpCode.
    destruct (valid o 255) eqn:V; cbn [negb]; [ | discriminate ].
    intros E. injection E as E. pose proof (Small o Ho V) as Hs.
    change 255 with (Z.ones 8) in E. rewrite Z.land_ones in E by lia.
    unfold wrap in E. rewrite Z.mod_mod, Z.mod_small in E by lia.
    subst b. split; [ exact Hs | ].
    unfold toOpCode. symmetry. apply wrap_small. lia. }
  split; [ | split; [ exact Back | ] ].
  - intros b Hb.
    assert (E : toOpCode b = b) by (apply wrap_small; lia).
    rewrite E. unfold OpCode.bpfOpCode.
    assert (V : valid b 0xff = true).
    { apply valid_low_byte; [ unfold uint32; lia | ].
      rewrite Z.shiftr_div_pow2 by lia. apply Z.div_small. lia. }
    rewrite V. cbn [negb]. f_equal.
    change 255 with (Z.ones 8). rewrite Z.land_ones by lia.
    unfold wrap. rewrite Z.mod_mod by lia. apply Z.mod_small. lia.
  - intros o1 o2 b H1 H2 E1 E2.
    destruct (Back o1 b H1 E1) as (_ & F1).
    destruct (Back o2 b H2 E2) as (_ & F2).
    congruence.
Qed.

Lemma bpfOpCode_byte_round_trip_witness :
  OpCode.bpfOpCode (toOpCode 0x61) = inl 0x61 /\
  (0 <= 0x95 < 256 /\ 0x95 = toOpCode 0x95).
Proof.
  destruct bpfOpCode_byte_round_trip as (Hto & Hback & _).
  split.
  - apply Hto. lia.
  - apply (Hback 0x95 0x95); [ uint32_const | reflexivity ].
Defined.

(** ** The two-slot load *)

(** Two values written through two masks without a common bit, starting from
    the zero opcode, are the union of the two values. *)
Lemma replace_twice_from_0 (m1 m2 v1 v2 : Z) :
  uint32 v1 -> Z.land m1 m2 = 0 -> valid v1 m1 = true ->
  Z.lor (Z.land (Z.lor (Z.land 0 (not32 m1)) v1) (not32 m2)) v2
  = Z.lor v1 v2.
Proof.
  intros U Hd V. bitwise i Hi.
  generalize (valid_bit v1 m1 i V Hi) (uint32_bit v1 i U Hi)
             (disjoint_bit m1 m2 i Hd).
  bool_blast.
Qed.

(** The field of a union of two values that are covered by two masks
    without a common bit. *)
Lemma land_lor_covered (m1 m2 v1 v2 : Z) :
  uint32 v1 -> uint32 v2 -> Z.land m1 m2 = 0 ->
  valid v1 m1 = true -> valid v2 m2 = true ->
  Z.land (Z.lor v1 v2) m1 = v1 /\ Z.land (Z.lor v1 v2) m2 = v2.
Proof.
  intros U1 U2 Hd V1 V2. split; bitwise i Hi;
    generalize (valid_bit v1 m1 i V1 Hi) (uint32_bit v1 i U1 Hi)
               (valid_bit v2 m2 i V2 Hi) (uint32_bit v2 i U2 Hi)
               (disjoint_bit m1 m2 i Hd);
    bool_blast.
Qed.

(** An opcode inside a cover of three fields is the union of two of them
    when the third is empty. *)
Lemma fields_determine (o c m1 m2 cover v1 v2 : Z) :
  uint32 o -> uint32 v1 -> uint32 v2 ->
  valid o cover = true -> Z.lor c (Z.lor m1 m2) = cover ->
  Z.land o c = 0 -> Z.land o m1 = v1 -> Z.land o m2 = v2 ->
  o = Z.lor v1 v2.
Proof.
  intros Uo U1 U2 Vo Hcov Ec E1 E2. bitwise i Hi.
  apply (f_equal (fun z => Z.testbit z i)) in Hcov, Ec, E1, E2.
  rewrite !Z.lor_spec in Hcov. rewrite Z.land_spec in Ec, E1, E2.
  rewrite Z.bits_0 in Ec.
  generalize Hcov Ec E1 E2 (valid_bit o cover i Vo Hi)
             (uint32_bit o i Uo Hi) (uint32_bit v1 i U1 Hi)
             (uint32_bit v2 i U2 Hi).
  bool_blast.
Qed.

(** A field read through a mask that fits the facet type is not cut by the
    conversion to that type. *)
Lemma wrap_field (o m w : Z) :
  0 <= m < 2 ^ w -> wrap w (Z.land o m) = Z.land o m.
Proof.
  intros Hm.
  assert (Hw : 0 <= w).
  { destruct (Z.ltb_spec w 0) as [Hneg | ]; [ | assumption ].
    rewrite Z.pow_neg_r in Hm by assumption. lia. }
  apply Z.bits_inj'. intros i Hi.
  rewrite testbit_wrap, Z.land_spec by assumption.
  destruct (Z.ltb_spec i w) as [Hlt | Hge]; [ reflexivity | ].
  rewrite (testbit_high w m i Hm Hge). now rewrite andb_false_r.
Qed.

Section DWordLoad.
Context {K : Decls}.

(** The layout of a load or store, as the comment of [OpCode] draws it: the
    class, the size and the mode fill the opcode byte and have no common bit;
    the two masks fit their facet types, which are at most 32 bits wide;
    [ImmMode] and [DWord] are values of their types, covered by their
    masks. *)
Hypothesis low_byte_fields :
  Z.lor classMask (Z.lor modeMask sizeMask) = 0xff.
Hypothesis modeMask_off_class : Z.land modeMask classMask = 0.
Hypothesis sizeMask_off_class : Z.land sizeMask classMask = 0.
Hypothesis modeMask_sizeMask : Z.land modeMask sizeMask = 0.
Hypothesis modeMask_fits : 0 <= modeMask < 2 ^ Mode_bits.
Hypothesis sizeMask_fits : 0 <= sizeMask < 2 ^ Size_bits.
Hypothesis Mode_bits_le : Mode_bits <= 32.
Hypothesis Size_bits_le : Size_bits <= 32.
Hypothesis ImmMode_typed : 0 <= ImmMode < 2 ^ Mode_bits.
Hypothesis DWord_typed : 0 <= DWord < 2 ^ Size_bits.
Hypothesis ImmMode_valid : valid (toOpCode ImmMode) modeMask = true.
Hypothesis DWord_valid : valid (toOpCode DWord) sizeMask = true.

(** [LoadImmOp(DWord)] is the union of [ImmMode] and [DWord]: both setters
    of the chain succeed on the class [LdClass]. *)
Lemma LoadImmOp_DWord_value :
  OpCode.LoadImmOp DWord = Z.lor (toOpCode ImmMode) (toOpCode DWord).
Proof.
  unfold OpCode.LoadImmOp. change (toOpCode LdClass) with 0.
  unfold OpCode.SetMode at 1.
  change (Class.isLoadOrStore (OpCode.Class 0)) with true.
  rewrite ImmMode_valid. cbn [negb orb].
  unfold OpCode.SetSize.
  rewrite Class_replace by assumption.
  change (Class.isLoadOrStore (OpCode.Class 0)) with true.
  rewrite DWord_valid. cbn [negb orb].
  apply replace_twice_from_0; assumption || apply uint32_toOpCode.
Qed.

(** The three facets of an opcode of a load or store class, as fields. *)
Lemma load_store_fields (o : Z) :
  uint32 o ->
  (OpCode.Class o = LdClass /\ OpCode.Mode o = ImmMode /\
   OpCode.Size o = DWord) <->
  (Z.land o classMask = 0 /\ Z.land o modeMask = toOpCode ImmMode /\
   Z.land o sizeMask = toOpCode DWord).
Proof.
  intros Uo.
  destruct (toOpCode_small _ _ Mode_bits_le ImmMode_typed) as [Im _].
  destruct (toOpCode_small _ _ Size_bits_le DWord_typed) as [Dw _].
  pose proof (wrap_field o modeMask Mode_bits modeMask_fits) as Wm.
  pose proof (wrap_field o sizeMask Size_bits sizeMask_fits) as Ws.
  rewrite Im, Dw. unfold OpCode.Mode, OpCode.Size.
  rewrite Class_land.
  split.
  - intros (Hc & Hm & Hs). unfold LdClass in Hc. rewrite Hc in Hm, Hs.
    change (Class.isLoadOrStore 0) with true in Hm, Hs.
    cbn [negb] in Hm, Hs. rewrite Wm in Hm. rewrite Ws in Hs. tauto.
  - intros (Hc & Hm & Hs). rewrite Hc.
    change (Class.isLoadOrStore 0) with true. cbn [negb].
    rewrite Wm, Ws. unfold LdClass. tauto.
Qed.

(** C2. For every valid opcode [o], one without a bit above the low byte,
    [rawInstructions] returns 2 if and only if [o] equals [LoadImmOp(DWord)],
    which is the case if and only if [o] has class [LdClass], mode [ImmMode]
    and size [DWord]; it returns 1 for every other opcode; and
    [LoadImmOp(DWord)] is itself such a valid opcode. *)
Theorem rawInstructions_DWord_load (o : Z) :
  uint32 o -> valid o 0xff = true ->
  (OpCode.rawInstructions o = 2 <-> o = OpCode.LoadImmOp DWord) /\
  (OpCode.rawInstructions o = 2 <->
   OpCode.Class o = LdClass /\ OpCode.Mode o = ImmMode /\
   OpCode.Size o = DWord) /\
  (o <> OpCode.LoadImmOp DWord -> OpCode.rawInstructions o = 1) /\
  valid (OpCode.LoadImmOp DWord) 0xff = true /\
  OpCode.Class (OpCode.LoadImmOp DWord) = LdClass /\
  OpCode.Mode (OpCode.LoadImmOp DWord) = ImmMode /\
  OpCode.Size (OpCode.LoadImmOp DWord) = DWord.
Proof.
  intros Uo Vo.
  pose proof (uint32_toOpCode ImmMode) as Ui.
  pose proof (uint32_toOpCode DWord) as Ud.
  set (L := OpCode.LoadImmOp DWord).
  assert (EL : L = Z.lor (toOpCode ImmMode) (toOpCode DWord))
    by apply LoadImmOp_DWord_value.
  destruct (land_lor_covered modeMask sizeMask _ _ Ui Ud modeMask_sizeMask
              ImmMode_valid DWord_valid) as [Lm Ls].
  assert (Lc : Z.land L classMask = 0).
  { rewrite EL. bitwise i Hi.
    generalize (valid_bit _ _ i ImmMode_valid Hi) (uint32_bit _ i Ui Hi)
               (valid_bit _ _ i DWord_valid Hi) (uint32_bit _ i Ud Hi)
               (disjoint_bit _ _ i modeMask_off_class)
               (disjoint_bit _ _ i sizeMask_off_class).
    bool_blast. }
  assert (UL : uint32 L).
  { rewrite EL. unfold uint32. split.
    - apply Z.lor_nonneg. split; [ apply Ui | apply Ud ].
    - destruct (Z.eq_dec (Z.lor (toOpCode ImmMode) (toOpCode DWord)) 0)
        as [E0 | N0]; [ rewrite E0; reflexivity | ].
      apply Z.log2_lt_pow2.
      + pose proof (Z.lor_nonneg (toOpCode ImmMode) (toOpCode DWord)).
        destruct Ui, Ud. lia.
      + rewrite Z.log2_lor by (apply Ui || apply Ud).
        apply Z.max_lub_lt.
        * destruct (Z.eq_dec (toOpCode ImmMode) 0) as [E | N];
            [ rewrite E; reflexivity | ].
          apply Z.log2_lt_pow2; destruct Ui; lia.
        * destruct (Z.eq_dec (toOpCode DWord) 0) as [E | N];
            [ rewrite E; reflexivity | ].
          apply Z.log2_lt_pow2; destruct Ud; lia. }
  assert (VL : valid L 0xff = true).
  { rewrite EL. apply valid_iff. bitwise i Hi.
    pose proof low_byte_fields as Hcov.
    apply (f_equal (fun z => Z.testbit z i)) in Hcov.
    rewrite !Z.lor_spec in Hcov.
    generalize Hcov (valid_bit _ _ i ImmMode_valid Hi)
               (uint32_bit _ i Ui Hi)
               (valid_bit _ _ i DWord_valid Hi) (uint32_bit _ i Ud Hi).
    bool_blast. }
  assert (FL : OpCode.Class L = LdClass /\ OpCode.Mode L = ImmMode /\
               OpCode.Size L = DWord).
  { apply (load_store_fields L UL). rewrite EL in *. tauto. }
  assert (Char : o = L <->
                 OpCode.Class o = LdClass /\ OpCode.Mode o = ImmMode /\
                 OpCode.Size o = DWord).
  { split; [ intros E; rewrite E; exact FL | ].
    intros F. apply (load_store_fields o Uo) in F.
    destruct F as (Fc & Fm & Fs). rewrite EL.
    now apply (fields_determine o classMask modeMask sizeMask 0xff). }
  destruct (rawInstructions_cases o) as [R2 R1]. fold L in R2, R1.
  split; [ exact R2 | ]. split; [ now rewrite R2 | ].
  split; [ exact R1 | ]. split; [ exact VL | exact FL ].
Qed.

End DWordLoad.

Lemma rawInstructions_DWord_load_witness :
  OpCode.rawInstructions (K:=uapi) 0x18 = 2 /\
  OpCode.rawInstructions (K:=uapi) 0x61 = 1 /\
  OpCode.Size (K:=uapi) (OpCode.LoadImmOp (K:=uapi) 0x18) = 0x18.
Proof.
  pose proof (rawInstructions_DWord_load (K:=uapi)) as R. uapi_layout R.
  destruct (R 0x18 ltac:(uint32_const) eq_refl) as (_ & H2 & _).
  destruct (R 0x61 ltac:(uint32_const) eq_refl)
    as (_ & _ & H1 & _ & _ & _ & Hs).
  split; [ apply H2; repeat split | ].
  split; [ apply H1; discriminate | exact Hs ].
Defined.
